(** * The conversations store of [src/lib/store-chats.ts]

    A shallow embedding of the zustand store that holds the chat
    conversations, and the properties of its mutation operations.

    Modelling choices, all taken from the source:
    - a JS [number] that counts tokens or milliseconds is an integer [Z];
      [x || 0] on an optional number is [or_zero]; where a property needs
      the arithmetic of doubles, the expressions are evaluated on binary64
      floats;
    - an optional field [f?: T] is [option T]; in a [Partial<DMessage>]
      every key may be absent, so an optional field becomes
      [option (option T)] (key absent / key present, possibly [undefined]);
      a key of a required field, when present, holds a value of the field's
      type;
    - [Date.now()] and the allocation of an object literal are effects:
      they are threaded through a small state monad over a [World];
    - the module never assigns to a field of an existing object, so a
      conversation object is its address together with its fields, and
      "same reference" is equality of the address (and then of the fields);
      messages and arrays are kept as plain values: no property below
      depends on their identity. *)

From stdpp Require Import base list strings.
From Stdlib Require Import ZArith Lia.
From Stdlib Require Import Floats.PrimFloat.

Local Open Scope Z_scope.
Local Open Scope string_scope.

(** ** The world: clock readings and object allocation *)

Definition loc := nat.

Record World := mkWorld {
  clock : nat -> Z;   (* the successive readings of [Date.now()] *)
  ticks : nat;        (* how many readings were taken *)
  next_loc : loc      (* the next free object address *)
}.

Definition Eff (A : Type) : Type := World -> A * World.

Definition ret {A} (a : A) : Eff A := fun w => (a, w).

Definition bind {A B} (c : Eff A) (k : A -> Eff B) : Eff B :=
  fun w => let (a, w') := c w in k a w'.

Notation "x <- c ;; k" := (bind c (fun x => k))
  (at level 100, c at next level, right associativity).

(* [Date.now()] *)
Definition Date_now : Eff Z :=
  fun w => (clock w (ticks w), mkWorld (clock w) (S (ticks w)) (next_loc w)).

(* the address of a freshly built object literal *)
Definition alloc : Eff loc :=
  fun w => (next_loc w, mkWorld (clock w) (ticks w) (S (next_loc w))).

(* [Array.prototype.map] with an effectful callback, left to right *)
Fixpoint mapE {A B} (f : A -> Eff B) (l : list A) : Eff (list B) :=
  match l with
  | [] => ret []
  | x :: l' => y <- f x ;; ys <- mapE f l' ;; ret (y :: ys)
  end.

(** ** Data model *)

(* [SystemPurposeId] and [ChatModelId] are string-literal unions declared in
   [@/lib/data]; the store only passes them through. *)
Definition SystemPurposeId := string.
Definition ChatModelId := string.

Inductive Role := assistant | system | user.

Record DMessage := mkDMessage {
  msg_id : string;
  msg_text : string;
  msg_sender : string;
  msg_avatar : option string;
  msg_typing : bool;
  msg_role : Role;
  msg_modelId : option string;
  msg_purposeId : option SystemPurposeId;
  msg_cacheTokensCount : option Z;
  msg_created : Z;
  msg_updated : option Z
}.

(* [Partial<DMessage>] *)
Record PartialDMessage := mkPartialDMessage {
  p_id : option string;
  p_text : option string;
  p_sender : option string;
  p_avatar : option (option string);
  p_typing : option bool;
  p_role : option Role;
  p_modelId : option (option string);
  p_purposeId : option (option SystemPurposeId);
  p_cacheTokensCount : option (option Z);
  p_created : option Z;
  p_updated : option (option Z)
}.

Record DConversation := mkDConversation {
  conv_id : string;
  conv_name : string;
  conv_messages : list DMessage;
  conv_systemPurposeId : SystemPurposeId;
  conv_chatModelId : ChatModelId;
  conv_userTitle : option string;
  conv_autoTitle : option string;
  conv_cacheTokensCount : option Z;
  conv_created : Z;
  conv_updated : option Z
}.

(* a conversation object on the heap *)
Record ConversationObj := mkObj {
  obj_addr : loc;
  obj_fields : DConversation
}.

Definition cid (c : ConversationObj) : string := conv_id (obj_fields c).

(* the data part of [ConversationsStore] *)
Record ConversationsStore := mkStore {
  conversations : list ConversationObj;
  activeConversationId : option string
}.

(* what an updater hands to zustand's [set]: the keys it mentions *)
Record PartialState := mkPartialState {
  set_conversations : option (list ConversationObj);
  set_activeConversationId : option (option string)
}.

(* zustand's [set] without the replace flag: a shallow merge into the state *)
Definition assign (state : ConversationsStore) (partial : PartialState)
  : ConversationsStore :=
  {| conversations := default (conversations state) (set_conversations partial);
     activeConversationId :=
       default (activeConversationId state) (set_activeConversationId partial) |}.

Definition set_ (partial : ConversationsStore -> PartialState)
  (state : ConversationsStore) : ConversationsStore :=
  assign state (partial state).

Definition setE (partial : ConversationsStore -> Eff PartialState)
  (state : ConversationsStore) : Eff ConversationsStore :=
  p <- partial state ;; ret (assign state p).

(* [x || 0] on an optional number *)
Definition or_zero (x : option Z) : Z :=
  match x with
  | Some n => n
  | None => 0
  end.

(* [messages.reduce((sum, message) => sum + (message.cacheTokensCount || 0), 0)] *)
Definition sumTokens (messages : list DMessage) : Z :=
  fold_left (fun sum message => sum + or_zero (msg_cacheTokensCount message))
    messages 0.

(** ** Module-level constants *)

Definition createConversation (id name : string)
  (systemPurposeId : SystemPurposeId) (chatModelId : ChatModelId)
  : Eff ConversationObj :=
  created <- Date_now ;;
  updated <- Date_now ;;
  a <- alloc ;;
  ret {| obj_addr := a;
         obj_fields :=
           {| conv_id := id; conv_name := name; conv_messages := [];
              conv_systemPurposeId := systemPurposeId;
              conv_chatModelId := chatModelId;
              conv_userTitle := None; conv_autoTitle := None;
              conv_cacheTokensCount := None;
              conv_created := created; conv_updated := Some updated |} |}.

Record Globals := mkGlobals {
  defaultConversations : list ConversationObj;
  errorConversation : ConversationObj
}.

(* Evaluation of the module's top-level [const]s. [defaultChatModelId] is
   imported from [@/lib/data] and is a parameter here. *)
Definition module_init (defaultChatModelId : ChatModelId) : Eff Globals :=
  d <- createConversation "default" "Conversation" "Generic" defaultChatModelId ;;
  e <- createConversation "error-missing" "Missing Conversation" "Developer"
         defaultChatModelId ;;
  ret {| defaultConversations := [d]; errorConversation := e |}.

(* the store's default state *)
Definition initial_state (g : Globals) : ConversationsStore :=
  {| conversations := defaultConversations g;
     activeConversationId := cid <$> head (defaultConversations g) |}.

(** ** The store's operations *)

Definition addConversation (conversation : ConversationObj)
  : ConversationsStore -> ConversationsStore :=
  set_ (fun state =>
    {| set_conversations :=
         Some (conversation :: take 19 (conversations state));
       set_activeConversationId := None |}).

Definition deleteConversation (conversationId : string)
  : ConversationsStore -> ConversationsStore :=
  set_ (fun state =>
    {| set_conversations :=
         Some (filter (fun conversation => cid conversation ≠ conversationId)
                 (conversations state));
       set_activeConversationId := None |}).

Definition resetConversations (g : Globals)
  : ConversationsStore -> ConversationsStore :=
  set_ (fun _ =>
    {| set_conversations := Some (defaultConversations g);
       set_activeConversationId := None |}).

Definition setActiveConversationId (conversationId : string)
  : ConversationsStore -> ConversationsStore :=
  set_ (fun _ =>
    {| set_conversations := None;
       set_activeConversationId := Some (Some conversationId) |}).

(* [{ ...conversation, ...{} }]: a new object with the same fields *)
Definition spread_copy (conversation : ConversationObj) : Eff ConversationObj :=
  a <- alloc ;;
  ret {| obj_addr := a; obj_fields := obj_fields conversation |}.

(* [{ ...conversation, messages, cacheTokensCount, updated }] *)
Definition spread_messages (conversation : ConversationObj)
  (messages : list DMessage) (cacheTokensCount : Z) (updated : Z)
  : Eff ConversationObj :=
  a <- alloc ;;
  ret {| obj_addr := a;
         obj_fields :=
           let c := obj_fields conversation in
           {| conv_id := conv_id c; conv_name := conv_name c;
              conv_messages := messages;
              conv_systemPurposeId := conv_systemPurposeId c;
              conv_chatModelId := conv_chatModelId c;
              conv_userTitle := conv_userTitle c;
              conv_autoTitle := conv_autoTitle c;
              conv_cacheTokensCount := Some cacheTokensCount;
              conv_created := conv_created c;
              conv_updated := Some updated |} |}.

Definition addMessage_conv (conversationId : string) (message : DMessage)
  (conversation : ConversationObj) : Eff ConversationObj :=
  if bool_decide (cid conversation ≠ conversationId)
  then spread_copy conversation
  else
    updated <- Date_now ;;
    spread_messages conversation
      (conv_messages (obj_fields conversation) ++ [message])
      (or_zero (conv_cacheTokensCount (obj_fields conversation))
       + or_zero (msg_cacheTokensCount message))
      updated.

Definition addMessage (conversationId : string) (message : DMessage)
  : ConversationsStore -> Eff ConversationsStore :=
  setE (fun state =>
    cs <- mapE (addMessage_conv conversationId message) (conversations state) ;;
    ret {| set_conversations := Some cs; set_activeConversationId := None |}).

(* [{ ...message, ...updatedMessage, updated }] *)
Definition merge_message (message : DMessage) (updatedMessage : PartialDMessage)
  (updated : Z) : DMessage :=
  {| msg_id := default (msg_id message) (p_id updatedMessage);
     msg_text := default (msg_text message) (p_text updatedMessage);
     msg_sender := default (msg_sender message) (p_sender updatedMessage);
     msg_avatar := default (msg_avatar message) (p_avatar updatedMessage);
     msg_typing := default (msg_typing message) (p_typing updatedMessage);
     msg_role := default (msg_role message) (p_role updatedMessage);
     msg_modelId := default (msg_modelId message) (p_modelId updatedMessage);
     msg_purposeId := default (msg_purposeId message) (p_purposeId updatedMessage);
     msg_cacheTokensCount :=
       default (msg_cacheTokensCount message) (p_cacheTokensCount updatedMessage);
     msg_created := default (msg_created message) (p_created updatedMessage);
     msg_updated := Some updated |}.

Definition editMessage_msg (messageId : string) (updatedMessage : PartialDMessage)
  (message : DMessage) : Eff DMessage :=
  if bool_decide (msg_id message = messageId)
  then updated <- Date_now ;; ret (merge_message message updatedMessage updated)
  else ret message.

Definition editMessage_conv (conversationId messageId : string)
  (updatedMessage : PartialDMessage) (conversation : ConversationObj)
  : Eff ConversationObj :=
  if bool_decide (cid conversation = conversationId)
  then
    newMessages <- mapE (editMessage_msg messageId updatedMessage)
                     (conv_messages (obj_fields conversation)) ;;
    updated <- Date_now ;;
    spread_messages conversation newMessages (sumTokens newMessages) updated
  else ret conversation.

Definition editMessage (conversationId messageId : string)
  (updatedMessage : PartialDMessage)
  : ConversationsStore -> Eff ConversationsStore :=
  setE (fun state =>
    cs <- mapE (editMessage_conv conversationId messageId updatedMessage)
            (conversations state) ;;
    ret {| set_conversations := Some cs; set_activeConversationId := None |}).

Definition removeMessage_conv (conversationId messageId : string)
  (conversation : ConversationObj) : Eff ConversationObj :=
  if bool_decide (cid conversation = conversationId)
  then
    let newMessages :=
      filter (fun message => msg_id message ≠ messageId)
        (conv_messages (obj_fields conversation)) in
    updated <- Date_now ;;
    spread_messages conversation newMessages (sumTokens newMessages) updated
  else ret conversation.

Definition removeMessage (conversationId messageId : string)
  : ConversationsStore -> Eff ConversationsStore :=
  setE (fun state =>
    cs <- mapE (removeMessage_conv conversationId messageId)
            (conversations state) ;;
    ret {| set_conversations := Some cs; set_activeConversationId := None |}).

Definition replaceMessages_conv (conversationId : string)
  (newMessages : list DMessage) (conversation : ConversationObj)
  : Eff ConversationObj :=
  if bool_decide (cid conversation = conversationId)
  then
    updated <- Date_now ;;
    spread_messages conversation newMessages (sumTokens newMessages) updated
  else ret conversation.

Definition replaceMessages (conversationId : string)
  (newMessages : list DMessage)
  : ConversationsStore -> Eff ConversationsStore :=
  setE (fun state =>
    cs <- mapE (replaceMessages_conv conversationId newMessages)
            (conversations state) ;;
    ret {| set_conversations := Some cs; set_activeConversationId := None |}).

Definition setSystemPurposeId_conv (conversationId : string)
  (systemPurposeId : SystemPurposeId) (conversation : ConversationObj)
  : Eff ConversationObj :=
  if bool_decide (cid conversation = conversationId)
  then
    updated <- Date_now ;;
    a <- alloc ;;
    ret {| obj_addr := a;
           obj_fields :=
             let c := obj_fields conversation in
             {| conv_id := conv_id c; conv_name := conv_name c;
                conv_messages := conv_messages c;
                conv_systemPurposeId := systemPurposeId;
                conv_chatModelId := conv_chatModelId c;
                conv_userTitle := conv_userTitle c;
                conv_autoTitle := conv_autoTitle c;
                conv_cacheTokensCount := conv_cacheTokensCount c;
                conv_created := conv_created c;
                conv_updated := Some updated |} |}
  else ret conversation.

Definition setSystemPurposeId (conversationId : string)
  (systemPurposeId : SystemPurposeId)
  : ConversationsStore -> Eff ConversationsStore :=
  setE (fun state =>
    cs <- mapE (setSystemPurposeId_conv conversationId systemPurposeId)
            (conversations state) ;;
    ret {| set_conversations := Some cs; set_activeConversationId := None |}).

Definition setChatModelId_conv (conversationId : string)
  (chatModelId : ChatModelId) (conversation : ConversationObj)
  : Eff ConversationObj :=
  if bool_decide (cid conversation = conversationId)
  then
    updated <- Date_now ;;
    a <- alloc ;;
    ret {| obj_addr := a;
           obj_fields :=
             let c := obj_fields conversation in
             {| conv_id := conv_id c; conv_name := conv_name c;
                conv_messages := conv_messages c;
                conv_systemPurposeId := conv_systemPurposeId c;
                conv_chatModelId := chatModelId;
                conv_userTitle := conv_userTitle c;
                conv_autoTitle := conv_autoTitle c;
                conv_cacheTokensCount := conv_cacheTokensCount c;
                conv_created := conv_created c;
                conv_updated := Some updated |} |}
  else ret conversation.

Definition setChatModelId (conversationId : string) (chatModelId : ChatModelId)
  : ConversationsStore -> Eff ConversationsStore :=
  setE (fun state =>
    cs <- mapE (setChatModelId_conv conversationId chatModelId)
            (conversations state) ;;
    ret {| set_conversations := Some cs; set_activeConversationId := None |}).

(** ** Derived views *)

(* [useChatStore(selector)] hands the selector the current snapshot *)
Definition useActiveConversation (g : Globals) (state : ConversationsStore)
  : ConversationObj :=
  let activeConversationId := activeConversationId state in
  default (errorConversation g)
    (find (fun conversation =>
             bool_decide (Some (cid conversation) = activeConversationId))
       (conversations state)).

Definition useConversationNames (state : ConversationsStore)
  : list (string * string * SystemPurposeId) :=
  (fun conversation =>
     (cid conversation, conv_name (obj_fields conversation),
      conv_systemPurposeId (obj_fields conversation)))
  <$> conversations state.

(** ** Calls of the mutation API, and runs of them *)

Inductive Op :=
| OAddConversation (conversation : ConversationObj)
| ODeleteConversation (conversationId : string)
| OResetConversations
| OSetActiveConversationId (conversationId : string)
| OSetChatModelId (conversationId : string) (chatModelId : ChatModelId)
| OSetSystemPurposeId (conversationId : string) (systemPurposeId : SystemPurposeId)
| OAddMessage (conversationId : string) (message : DMessage)
| OEditMessage (conversationId messageId : string) (updatedMessage : PartialDMessage)
| ORemoveMessage (conversationId messageId : string)
| OReplaceMessages (conversationId : string) (messages : list DMessage).

Definition exec (g : Globals) (op : Op) (state : ConversationsStore)
  : Eff ConversationsStore :=
  match op with
  | OAddConversation c => ret (addConversation c state)
  | ODeleteConversation i => ret (deleteConversation i state)
  | OResetConversations => ret (resetConversations g state)
  | OSetActiveConversationId i => ret (setActiveConversationId i state)
  | OSetChatModelId i m => setChatModelId i m state
  | OSetSystemPurposeId i p => setSystemPurposeId i p state
  | OAddMessage i m => addMessage i m state
  | OEditMessage i j u => editMessage i j u state
  | ORemoveMessage i j => removeMessage i j state
  | OReplaceMessages i ms => replaceMessages i ms state
  end.

Fixpoint run (g : Globals) (ops : list Op) (state : ConversationsStore)
  : Eff ConversationsStore :=
  match ops with
  | [] => ret state
  | op :: ops' => state' <- exec g op state ;; run g ops' state'
  end.

(** ** Auxiliary predicates used in the statements *)

(* the stored aggregate, read with [|| 0], is the sum over the messages *)
Definition aggregate_ok (c : ConversationObj) : Prop :=
  or_zero (conv_cacheTokensCount (obj_fields c))
  = sumTokens (conv_messages (obj_fields c)).

(* the stored aggregate is present and is the sum over the messages *)
Definition aggregate_exact (c : ConversationObj) : Prop :=
  conv_cacheTokensCount (obj_fields c)
  = Some (sumTokens (conv_messages (obj_fields c))).

(* no conversation of the list has the active id *)
Definition dangling (state : ConversationsStore) : Prop :=
  Forall (fun c => Some (cid c) ≠ activeConversationId state)
    (conversations state).

(* conversation ids occur once in the list *)
Definition ids_unique (state : ConversationsStore) : Prop :=
  NoDup (cid <$> conversations state).

(* a conversation handed to [addConversation] carries a consistent aggregate *)
Definition add_consistent (op : Op) : Prop :=
  match op with
  | OAddConversation c => aggregate_ok c
  | _ => True
  end.

(* along the run, every [addConversation] supplies an id that is not in the
   list at the time of the call *)
Fixpoint adds_fresh (g : Globals) (ops : list Op) (state : ConversationsStore)
  (w : World) : Prop :=
  match ops with
  | [] => True
  | op :: ops' =>
      match op with
      | OAddConversation c => cid c ∉ cid <$> conversations state
      | _ => True
      end
      /\ adds_fresh g ops' (exec g op state w).1 (exec g op state w).2
  end.

(* the conversation id a message operation is aimed at *)
Definition message_op (op : Op) : option string :=
  match op with
  | OAddMessage i _ | OEditMessage i _ _ | ORemoveMessage i _
  | OReplaceMessages i _ => Some i
  | _ => None
  end.

(* the conversation id an operation looks up in the list *)
Definition target (op : Op) : option string :=
  match op with
  | ODeleteConversation i | OSetChatModelId i _ | OSetSystemPurposeId i _
  | OAddMessage i _ | OEditMessage i _ _ | ORemoveMessage i _
  | OReplaceMessages i _ => Some i
  | _ => None
  end.

(* a message, a conversation without their [updated] stamps (and, for the
   conversation, without its messages, which are compared one by one) *)
Definition strip_message (m : DMessage) : DMessage :=
  {| msg_id := msg_id m; msg_text := msg_text m; msg_sender := msg_sender m;
     msg_avatar := msg_avatar m; msg_typing := msg_typing m;
     msg_role := msg_role m; msg_modelId := msg_modelId m;
     msg_purposeId := msg_purposeId m;
     msg_cacheTokensCount := msg_cacheTokensCount m;
     msg_created := msg_created m; msg_updated := None |}.

Definition strip_conversation (c : DConversation) : DConversation :=
  {| conv_id := conv_id c; conv_name := conv_name c; conv_messages := [];
     conv_systemPurposeId := conv_systemPurposeId c;
     conv_chatModelId := conv_chatModelId c;
     conv_userTitle := conv_userTitle c; conv_autoTitle := conv_autoTitle c;
     conv_cacheTokensCount := conv_cacheTokensCount c;
     conv_created := conv_created c; conv_updated := None |}.

(* equal, except for [updated] when the message has id [j] *)
Definition same_but_updated_msg (j : string) (m1 m2 : DMessage) : Prop :=
  if bool_decide (msg_id m1 = j)
  then strip_message m1 = strip_message m2
  else m1 = m2.

(* the same object, or for a conversation with id [i]: equal fields except
   for [updated], and messages equal except for [updated] on those with
   id [j] *)
Definition same_but_updated_conv (i j : string) (c1 c2 : ConversationObj)
  : Prop :=
  if bool_decide (cid c1 = i)
  then strip_conversation (obj_fields c1) = strip_conversation (obj_fields c2)
       /\ Forall2 (same_but_updated_msg j)
            (conv_messages (obj_fields c1)) (conv_messages (obj_fields c2))
  else c1 = c2.

(* the fields of [c] with the aggregate recomputed and [updated] set *)
Definition restamp (c : DConversation) (updated : Z) : DConversation :=
  {| conv_id := conv_id c; conv_name := conv_name c;
     conv_messages := conv_messages c;
     conv_systemPurposeId := conv_systemPurposeId c;
     conv_chatModelId := conv_chatModelId c;
     conv_userTitle := conv_userTitle c; conv_autoTitle := conv_autoTitle c;
     conv_cacheTokensCount := Some (sumTokens (conv_messages c));
     conv_created := conv_created c; conv_updated := Some updated |}.

(* the callback an operation maps over the conversation list *)
Definition per_conversation (op : Op)
  : option (ConversationObj -> Eff ConversationObj) :=
  match op with
  | OSetChatModelId i m => Some (setChatModelId_conv i m)
  | OSetSystemPurposeId i p => Some (setSystemPurposeId_conv i p)
  | OAddMessage i m => Some (addMessage_conv i m)
  | OEditMessage i j u => Some (editMessage_conv i j u)
  | ORemoveMessage i j => Some (removeMessage_conv i j)
  | OReplaceMessages i ms => Some (replaceMessages_conv i ms)
  | _ => None
  end.

(* content of a snapshot, without object identities *)
Definition content (state : ConversationsStore)
  : list DConversation * option string :=
  (obj_fields <$> conversations state, activeConversationId state).

(** ** A sample world, for concrete runs *)

Definition sample_world : World :=
  mkWorld (fun n => 1000 + Z.of_nat n) 0%nat 0%nat.
Definition sample_globals : Globals := (module_init "gpt-4" sample_world).1.
Definition sample_world' : World := (module_init "gpt-4" sample_world).2.

Definition sample_message (id : string) (role : Role) (tokens : option Z)
  : DMessage :=
  {| msg_id := id; msg_text := "hi"; msg_sender := "You"; msg_avatar := None;
     msg_typing := false; msg_role := role; msg_modelId := None;
     msg_purposeId := None; msg_cacheTokensCount := tokens;
     msg_created := 0; msg_updated := None |}.

Definition sample_conversation (a : loc) (id : string) (tokens : option Z)
  : ConversationObj :=
  {| obj_addr := a;
     obj_fields :=
       {| conv_id := id; conv_name := "Chat"; conv_messages := [];
          conv_systemPurposeId := "Generic"; conv_chatModelId := "gpt-4";
          conv_userTitle := None; conv_autoTitle := None;
          conv_cacheTokensCount := tokens;
          conv_created := 0; conv_updated := None |} |}.

Definition empty_partial : PartialDMessage :=
  {| p_id := None; p_text := None; p_sender := None; p_avatar := None;
     p_typing := None; p_role := None; p_modelId := None; p_purposeId := None;
     p_cacheTokensCount := None; p_created := None; p_updated := None |}.

(* the 25 conversations c1..c25 of the eviction scenario *)
Definition scenario_conversations : list ConversationObj :=
  [ sample_conversation 1%nat "c1" None;
     sample_conversation 2%nat "c2" None;
     sample_conversation 3%nat "c3" None;
     sample_conversation 4%nat "c4" None;
     sample_conversation 5%nat "c5" None;
     sample_conversation 6%nat "c6" None;
     sample_conversation 7%nat "c7" None;
     sample_conversation 8%nat "c8" None;
     sample_conversation 9%nat "c9" None;
     sample_conversation 10%nat "c10" None;
     sample_conversation 11%nat "c11" None;
     sample_conversation 12%nat "c12" None;
     sample_conversation 13%nat "c13" None;
     sample_conversation 14%nat "c14" None;
     sample_conversation 15%nat "c15" None;
     sample_conversation 16%nat "c16" None;
     sample_conversation 17%nat "c17" None;
     sample_conversation 18%nat "c18" None;
     sample_conversation 19%nat "c19" None;
     sample_conversation 20%nat "c20" None;
     sample_conversation 21%nat "c21" None;
     sample_conversation 22%nat "c22" None;
     sample_conversation 23%nat "c23" None;
     sample_conversation 24%nat "c24" None;
     sample_conversation 25%nat "c25" None ].

(* a message as [editMessage] leaves it: if its id is [j], it is a merge *)
Definition edited_msg (j : string) (u : PartialDMessage) (m1 : DMessage) : Prop :=
  msg_id m1 = j -> exists m t, m1 = merge_message m u t.

(* a conversation as [editMessage] leaves it *)
Definition edited_conv (i j : string) (u : PartialDMessage)
  (c1 : ConversationObj) : Prop :=
  cid c1 = i ->
  aggregate_exact c1 /\ Forall (edited_msg j u) (conv_messages (obj_fields c1)).

(** ** The active configuration *)

(* what [useActiveConfiguration] returns; a setter acts on the store state
   that [useChatStore.getState()] finds when it is called *)
Record ActiveConfiguration := mkActiveConfiguration {
  cfg_systemPurposeId : SystemPurposeId;
  cfg_chatModelId : ChatModelId;
  cfg_setSystemPurposeId :
    SystemPurposeId -> ConversationsStore -> Eff ConversationsStore;
  cfg_setChatModelId :
    ChatModelId -> ConversationsStore -> Eff ConversationsStore
}.

Definition useActiveConfiguration (g : Globals) (state : ConversationsStore)
  : ActiveConfiguration :=
  let activeConversation := useActiveConversation g state in
  {| cfg_systemPurposeId := conv_systemPurposeId (obj_fields activeConversation);
     cfg_chatModelId := conv_chatModelId (obj_fields activeConversation);
     cfg_setSystemPurposeId := fun systemPurposeId =>
       setSystemPurposeId (cid activeConversation) systemPurposeId;
     cfg_setChatModelId := fun chatModelId =>
       setChatModelId (cid activeConversation) chatModelId |}.

(** ** Equality up to [updated] stamps and object identity *)

Definition msg_equiv (m1 m2 : DMessage) : Prop :=
  strip_message m1 = strip_message m2.

Definition fields_equiv (c1 c2 : DConversation) : Prop :=
  strip_conversation c1 = strip_conversation c2
  /\ Forall2 msg_equiv (conv_messages c1) (conv_messages c2).

Definition state_equiv (s1 s2 : ConversationsStore) : Prop :=
  activeConversationId s1 = activeConversationId s2
  /\ Forall2 (fun c1 c2 => fields_equiv (obj_fields c1) (obj_fields c2))
       (conversations s1) (conversations s2).

(* some conversation of the list has the active id *)
Definition resolves (state : ConversationsStore) : Prop :=
  Exists (fun c => Some (cid c) = activeConversationId state)
    (conversations state).

(* the fields of a conversation that no operation of the store rewrites *)
Definition conv_identity (c : ConversationObj)
  : string * string * Z * option string * option string :=
  (cid c, conv_name (obj_fields c), conv_created (obj_fields c),
   conv_userTitle (obj_fields c), conv_autoTitle (obj_fields c)).

(* [w'] is a later world than [w]: same clock, more readings taken, more
   objects allocated *)
Definition world_le (w w' : World) : Prop :=
  clock w' = clock w
  /\ (ticks w <= ticks w')%nat /\ (next_loc w <= next_loc w')%nat.

(** ** The range in which counting is exact *)

(* the stored aggregate, the counts of the messages and the new count are
   non-negative and adding the new count stays at or below 2^53: in that
   range the doubles of the source add like integers *)
Definition adds_exactly (c : ConversationObj) (m : DMessage) : Prop :=
  0 <= or_zero (conv_cacheTokensCount (obj_fields c))
  /\ 0 <= or_zero (msg_cacheTokensCount m)
  /\ Forall (fun m0 => 0 <= or_zero (msg_cacheTokensCount m0))
       (conv_messages (obj_fields c))
  /\ or_zero (conv_cacheTokensCount (obj_fields c))
     + or_zero (msg_cacheTokensCount m) <= 2 ^ 53
  /\ sumTokens (conv_messages (obj_fields c))
     + or_zero (msg_cacheTokensCount m) <= 2 ^ 53.

(** ** The two aggregate expressions over IEEE doubles

    A JS [number] is a double. The expressions that compute the aggregate
    are repeated here over Rocq's binary64 floats, to evaluate them where
    doubles and integers part ways. *)

(* [x || 0] on an optional double: [undefined], [0], [-0] and [NaN] are
   falsy *)
Definition js_or_zero (x : option float) : float :=
  match x with
  | Some n => if (is_nan n || is_zero n)%bool then 0%float else n
  | None => 0%float
  end.

(* [(conversation.cacheTokensCount || 0) + (message.cacheTokensCount || 0)]
   of [addMessage] *)
Definition addMessage_cacheTokensCount_double
  (stored count : option float) : float :=
  (js_or_zero stored + js_or_zero count)%float.

(* [newMessages.reduce((sum, message) => sum + (message.cacheTokensCount || 0), 0)]
   over the [cacheTokensCount] fields of the messages *)
Definition sumTokens_double (counts : list (option float)) : float :=
  fold_left (fun sum count => (sum + js_or_zero count)%float) counts 0%float.

(* a message before and after [editMessage_msg], between two worlds *)
Definition edited_between (j : string) (u : PartialDMessage)
  (a b : World) (m m' : DMessage) : Prop :=
  if bool_decide (msg_id m = j)
  then exists n, (ticks a <= n < ticks b)%nat
                 /\ m' = merge_message m u (clock a n)
  else m' = m.

(** ** Tactics for unfolding the callbacks *)

Ltac eff :=
  unfold addMessage_conv, editMessage_conv, removeMessage_conv,
    replaceMessages_conv, setSystemPurposeId_conv, setChatModelId_conv,
    editMessage_msg, spread_copy, spread_messages, bind, ret, Date_now,
    alloc, cid in *;
  simpl in *.

Ltac callback_cases op Hf :=
  destruct op; simpl in Hf; try discriminate; injection Hf as <-; eff;
  repeat case_bool_decide; simpl;
  try match goal with
      | |- context [mapE ?f ?l ?w] => destruct (mapE f l w); simpl
      end.

(** ** Effects: general facts *)

Section Effects.
Context {A B : Type}.
Implicit Types (f : A -> Eff B) (l : list A) (w : World).

Lemma mapE_cons f x l w :
  mapE f (x :: l) w
  = (((f x w).1 :: (mapE f l (f x w).2).1), (mapE f l (f x w).2).2).
Proof.
  simpl. unfold bind, ret.
  destruct (f x w) as [y w1]. simpl.
  destruct (mapE f l w1) as [ys w2]. reflexivity.
Qed.

(* the callback relates every element to its image, whatever the world *)
Lemma mapE_Forall2 (R : A -> B -> Prop) f l w :
  (forall x w', x ∈ l -> R x (f x w').1) ->
  Forall2 R l (mapE f l w).1.
Proof.
  revert w. induction l as [|x l IH]; intros w HR.
  - constructor.
  - rewrite mapE_cons. simpl. constructor.
    + apply HR. left.
    + apply IH. intros y w' Hy. apply HR. by right.
Qed.

Lemma mapE_length f l w : length (mapE f l w).1 = length l.
Proof.
  symmetry. eapply Forall2_length, (mapE_Forall2 (fun _ _ => True)). done.
Qed.

Lemma mapE_Forall (P : A -> Prop) (Q : B -> Prop) f l w :
  (forall x w', P x -> Q (f x w').1) ->
  Forall P l -> Forall Q (mapE f l w).1.
Proof.
  intros HPQ Hl.
  assert (Forall2 (fun x y => P x -> Q y) l (mapE f l w).1) as H2
    by (apply mapE_Forall2; auto).
  revert Hl. induction H2; intros Hl; inversion Hl; subst; constructor; auto.
Qed.

(* a projection the callback keeps is kept by the whole map *)
Lemma mapE_proj {C} (h : A -> C) (h' : B -> C) f l w :
  (forall x w', x ∈ l -> h' (f x w').1 = h x) ->
  h' <$> (mapE f l w).1 = h <$> l.
Proof.
  intros H.
  assert (Forall2 (fun x y => h' y = h x) l (mapE f l w).1) as H2
    by (apply mapE_Forall2; auto).
  clear H. induction H2 as [|x y l l' Hxy _ IH]; csimpl; [done|].
  by rewrite Hxy, IH.
Qed.
End Effects.

Lemma mapE_id {A} (f : A -> Eff A) l w :
  (forall x w', x ∈ l -> (f x w').1 = x) -> (mapE f l w).1 = l.
Proof.
  intros H. rewrite <- (list_fmap_id l) at 2.
  rewrite <- (list_fmap_id (mapE f l w).1). by apply mapE_proj.
Qed.

(** ** How an operation acts on the snapshot *)

Lemma setE_mapE (f : ConversationObj -> Eff ConversationObj) s w :
  (setE (fun state =>
           cs <- mapE f (conversations state) ;;
           ret {| set_conversations := Some cs;
                  set_activeConversationId := None |}) s w).1
  = {| conversations := (mapE f (conversations s) w).1;
       activeConversationId := activeConversationId s |}.
Proof.
  unfold setE, bind, ret. by destruct (mapE f (conversations s) w).
Qed.

Lemma exec_per_conversation g op f s w :
  per_conversation op = Some f ->
  (exec g op s w).1
  = {| conversations := (mapE f (conversations s) w).1;
       activeConversationId := activeConversationId s |}.
Proof.
  intros H.
  destruct op; simpl in H; try discriminate; injection H as <-;
    apply setE_mapE.
Qed.

Lemma run_app g ops1 ops2 s w :
  run g (ops1 ++ ops2) s w
  = run g ops2 (run g ops1 s w).1 (run g ops1 s w).2.
Proof.
  revert s w. induction ops1 as [|op ops1 IH]; intros s w; simpl.
  - reflexivity.
  - unfold bind. destruct (exec g op s w) as [s1 w1]. apply IH.
Qed.

Lemma run_cons g op ops s w :
  run g (op :: ops) s w = run g ops (exec g op s w).1 (exec g op s w).2.
Proof. simpl. unfold bind. by destruct (exec g op s w). Qed.

Lemma module_init_defaults d w :
  exists a t t',
    defaultConversations (module_init d w).1
    = [ {| obj_addr := a;
           obj_fields :=
             {| conv_id := "default"; conv_name := "Conversation";
                conv_messages := []; conv_systemPurposeId := "Generic";
                conv_chatModelId := d; conv_userTitle := None;
                conv_autoTitle := None; conv_cacheTokensCount := None;
                conv_created := t; conv_updated := Some t' |} |} ].
Proof. by eexists _, _, _. Qed.

Lemma sumTokens_app ms m :
  sumTokens (ms ++ [m]) = sumTokens ms + or_zero (msg_cacheTokensCount m).
Proof. unfold sumTokens. by rewrite fold_left_app. Qed.

Lemma find_none_dangling g s :
  dangling s -> useActiveConversation g s = errorConversation g.
Proof.
  unfold dangling, useActiveConversation. intros H.
  induction H as [|c cs Hc _ IH]; simpl; [done|].
  by rewrite bool_decide_eq_false_2.
Qed.

(** ** The conversation list is bounded and newest-first *)

Lemma addConversation_conversations c s :
  conversations (addConversation c s) = c :: take 19 (conversations s).
Proof. reflexivity. Qed.

Lemma addConversation_fold cs s :
  (length (conversations s) <= 20)%nat ->
  conversations (fold_left (fun st c => addConversation c st) cs s)
  = take 20 (rev cs ++ conversations s).
Proof.
  intros Hs. induction cs as [|c cs IH] using rev_ind.
  - simpl. symmetry. by apply take_ge.
  - rewrite fold_left_app. cbn [fold_left].
    rewrite addConversation_conversations, IH.
    rewrite take_take, rev_app_distr. reflexivity.
Qed.

(** C2. [addConversation] puts the new conversation first and never leaves
    more than 20 conversations; adding 25 conversations c1..c25 to an empty
    list leaves the 20 conversations c25..c6, newest first (c1..c5 are
    evicted). *)
Theorem addConversation_bounded_newest_first :
  (forall c s,
     head (conversations (addConversation c s)) = Some c
     /\ (length (conversations (addConversation c s)) <= 20)%nat)
  /\ (forall cs s,
        conversations s = [] -> length cs = 25%nat ->
        conversations (fold_left (fun st c => addConversation c st) cs s)
        = rev (drop 5 cs)).
Proof.
  split.
  - intros c s. rewrite addConversation_conversations. split; [done|].
    simpl. rewrite length_take. lia.
  - intros cs s Hs Hlen. rewrite addConversation_fold, Hs, app_nil_r by (rewrite Hs; simpl; lia).
    rewrite <- (take_drop 5 cs) at 1. rewrite rev_app_distr.
    rewrite take_app_length'; [done|].
    rewrite length_rev, length_drop. lia.
Qed.

Lemma addConversation_scenario_witness :
  cid <$>
    conversations
      (fold_left (fun st c => addConversation c st) scenario_conversations
         {| conversations := []; activeConversationId := None |})
  = ["c25"; "c24"; "c23"; "c22"; "c21"; "c20"; "c19"; "c18"; "c17"; "c16";
     "c15"; "c14"; "c13"; "c12"; "c11"; "c10"; "c9"; "c8"; "c7"; "c6"].
Proof.
  rewrite (proj2 addConversation_bounded_newest_first scenario_conversations
             {| conversations := []; activeConversationId := None |}
             eq_refl eq_refl).
  reflexivity.
Defined.

(** ** The active conversation and its sentinel *)

Lemma deleteConversation_dangling i s :
  activeConversationId s = Some i -> dangling (deleteConversation i s).
Proof.
  intros Ha. unfold dangling, deleteConversation, set_, assign. simpl.
  rewrite Ha. apply Forall_forall. intros c Hc.
  apply list_elem_of_filter in Hc as [Hc _]. congruence.
Qed.

(** C5. When the active id resolves to no conversation of the list, and in
    particular after [deleteConversation id] while the active id is [id],
    [useActiveConversation] returns the module's [errorConversation]: one
    fixed conversation object, labelled "Missing Conversation". *)
Theorem missing_conversation_sentinel g s :
  (dangling s -> useActiveConversation g s = errorConversation g)
  /\ (forall i,
        activeConversationId s = Some i ->
        useActiveConversation g (deleteConversation i s) = errorConversation g)
  /\ (forall d w,
        let e := errorConversation (module_init d w).1 in
        cid e = "error-missing"
        /\ conv_name (obj_fields e) = "Missing Conversation").
Proof.
  split; [apply find_none_dangling|]. split.
  - intros i Ha. by apply find_none_dangling, deleteConversation_dangling.
  - done.
Qed.

Lemma missing_conversation_sentinel_witness :
  useActiveConversation sample_globals
    (deleteConversation "default" (initial_state sample_globals))
  = errorConversation sample_globals
  /\ useActiveConversation sample_globals
       (setActiveConversationId "gone" (initial_state sample_globals))
     = errorConversation sample_globals.
Proof.
  split.
  - apply (proj1 (proj2 (missing_conversation_sentinel sample_globals
                           (initial_state sample_globals)))).
    reflexivity.
  - apply (proj1 (missing_conversation_sentinel sample_globals
                    (setActiveConversationId "gone"
                       (initial_state sample_globals)))).
    repeat constructor. simpl. discriminate.
Defined.

(** ** Resetting the store *)

(** C7 as stated fails: the conversation left by [resetConversations] has no
    [cacheTokensCount] field, so its value is not the number 0. *)
Lemma resetConversations_aggregate_absent :
  ~ Forall (fun c => conv_cacheTokensCount (obj_fields c) = Some 0)
      (conversations
         (resetConversations sample_globals (initial_state sample_globals))).
Proof. intros H. inversion H as [|c cs Hc _]. discriminate Hc. Qed.

(** C7, amended. [resetConversations] replaces the conversation list with the
    module's [defaultConversations]: exactly one conversation, with id
    "default", an empty message list and no [cacheTokensCount] field, which
    [|| 0] reads as 0. *)
Theorem resetConversations_single_default d w s :
  let g := (module_init d w).1 in
  conversations (resetConversations g s) = defaultConversations g
  /\ exists c,
       conversations (resetConversations g s) = [c]
       /\ cid c = "default"
       /\ conv_messages (obj_fields c) = []
       /\ conv_cacheTokensCount (obj_fields c) = None
       /\ or_zero (conv_cacheTokensCount (obj_fields c)) = 0.
Proof.
  intros g. split; [reflexivity|].
  destruct (module_init_defaults d w) as (a & t & t' & Hd).
  eexists. split; [exact Hd|]. done.
Qed.

(** ** The active pointer is only moved by [setActiveConversationId] *)

(** C10. Every operation other than [setActiveConversationId] leaves
    [activeConversationId] as it was. Deleting the active conversation
    therefore leaves an active id that resolves to nothing, and so does a
    reset when the active id is not the id of a default conversation. *)
Theorem activeConversationId_frame g op s w :
  (forall i, op ≠ OSetActiveConversationId i) ->
  activeConversationId (exec g op s w).1 = activeConversationId s
  /\ (forall i, op = ODeleteConversation i ->
        activeConversationId s = Some i -> dangling (exec g op s w).1)
  /\ (op = OResetConversations ->
        Forall (fun c => Some (cid c) ≠ activeConversationId s)
          (defaultConversations g) ->
        dangling (exec g op s w).1).
Proof.
  intros Hop. split; [|split].
  - destruct (per_conversation op) as [f|] eqn:Hf.
    + by rewrite (exec_per_conversation g op f s w Hf).
    + destruct op; try discriminate; try reflexivity. by destruct (Hop conversationId).
  - intros i -> Ha. by apply deleteConversation_dangling.
  - intros -> Hd. exact Hd.
Qed.

Lemma activeConversationId_frame_witness :
  let s := initial_state sample_globals in
  let s' := (exec sample_globals (ODeleteConversation "default") s
               sample_world').1 in
  activeConversationId s' = Some "default" /\ dangling s'.
Proof.
  intros s s'.
  destruct (activeConversationId_frame sample_globals
              (ODeleteConversation "default") s sample_world')
    as (Hframe & Hdel & _); [discriminate|].
  split; [exact Hframe|]. by apply (Hdel "default").
Defined.

(** ** What each callback does to one conversation *)

Lemma callback_cid op f c w :
  per_conversation op = Some f -> cid (f c w).1 = cid c.
Proof. intros Hf. callback_cases op Hf; reflexivity. Qed.

Lemma callback_aggregate_ok op f c w :
  per_conversation op = Some f -> aggregate_ok c -> aggregate_ok (f c w).1.
Proof.
  unfold aggregate_ok. intros Hf Hc. callback_cases op Hf; try done.
  rewrite sumTokens_app. lia.
Qed.

Lemma callback_aggregate_exact op f i c w :
  per_conversation op = Some f -> message_op op = Some i ->
  cid c = i -> aggregate_ok c -> aggregate_exact (f c w).1.
Proof.
  unfold aggregate_ok, aggregate_exact. intros Hf Hi Hc Hok.
  destruct op; simpl in Hi; try discriminate; injection Hi as ->;
    simpl in Hf; injection Hf as <-; eff;
    repeat case_bool_decide; simpl; try congruence;
    try match goal with
        | |- context [mapE ?f ?l ?w] => destruct (mapE f l w); simpl
        end; try done.
  rewrite sumTokens_app. by rewrite Hok.
Qed.

(* the three recomputing operations need no assumption on the old aggregate *)
Lemma recompute_aggregate_exact op f i c w :
  per_conversation op = Some f -> message_op op = Some i ->
  (forall m, op ≠ OAddMessage i m) ->
  cid c = i -> aggregate_exact (f c w).1.
Proof.
  unfold aggregate_exact. intros Hf Hi Hadd Hc.
  destruct op; simpl in Hi; try discriminate; injection Hi as ->;
    simpl in Hf; injection Hf as <-; eff;
    repeat case_bool_decide; simpl; try congruence;
    try match goal with
        | |- context [mapE ?f ?l ?w] => destruct (mapE f l w); simpl
        end; try done.
  by destruct (Hadd message).
Qed.

(** ** The aggregate invariant *)

Lemma exec_aggregate_ok d wi op s w :
  let g := (module_init d wi).1 in
  Forall aggregate_ok (conversations s) -> add_consistent op ->
  Forall aggregate_ok (conversations (exec g op s w).1).
Proof.
  intros g Hs Hop.
  destruct (per_conversation op) as [f|] eqn:Hf.
  - rewrite (exec_per_conversation g op f s w Hf). simpl.
    eapply mapE_Forall; [|exact Hs]. intros c w' Hc.
    by apply (callback_aggregate_ok op).
  - destruct op; try discriminate; simpl.
    + constructor; [exact Hop|]. by apply Forall_take.
    + apply Forall_forall. intros c [_ Hc]%list_elem_of_filter.
      by apply (proj1 (Forall_forall _ _) Hs).
    + destruct (module_init_defaults d wi) as (a & t & t' & Hd).
      change (Forall aggregate_ok (defaultConversations (module_init d wi).1)).
      rewrite Hd. by repeat constructor.
    + exact Hs.
Qed.

Lemma run_aggregate_ok d wi ops s w :
  let g := (module_init d wi).1 in
  Forall aggregate_ok (conversations s) -> Forall add_consistent ops ->
  Forall aggregate_ok (conversations (run g ops s w).1).
Proof.
  intros g. revert s w. induction ops as [|op ops IH]; intros s w Hs Hops.
  - exact Hs.
  - inversion Hops as [|? ? Hop Hops']; subst. rewrite run_cons.
    apply IH; [|exact Hops']. by apply exec_aggregate_ok.
Qed.

(** C1 as stated fails: a conversation handed to [addConversation] with an
    aggregate of 100 and no messages keeps a stale aggregate (103, for one
    message of 3 tokens) after [addMessage]. *)
Lemma addMessage_keeps_stale_aggregate :
  let s := (run sample_globals
              [OAddConversation (sample_conversation 7%nat "c1" (Some 100));
               OAddMessage "c1" (sample_message "m1" user (Some 3))]
              (initial_state sample_globals) sample_world').1 in
  cid <$> conversations s = ["c1"; "default"]
  /\ (conv_cacheTokensCount ∘ obj_fields) <$> conversations s
     = [Some 103; None]
  /\ (sumTokens ∘ conv_messages ∘ obj_fields) <$> conversations s = [3; 0]
  /\ ~ Forall (fun c => cid c = "c1" -> aggregate_ok c) (conversations s).
Proof.
  intros s. repeat split. intros H. apply Forall_inv in H.
  specialize (H eq_refl). vm_compute in H. discriminate H.
Qed.

(** C1, amended. Start from a state in which every conversation's aggregate
    (absent read as 0) is the sum over its messages, and run any sequence of
    operations in which every conversation handed to [addConversation] has
    that property too. Then after [addMessage], [editMessage],
    [removeMessage] or [replaceMessages] the conversations with the given id
    store exactly the sum of their messages' [cacheTokensCount] (absent read
    as 0), and every conversation of the list still has a consistent
    aggregate. *)
Theorem aggregate_exact_after_message_ops d wi ops op i s w :
  let g := (module_init d wi).1 in
  Forall aggregate_ok (conversations s) ->
  Forall add_consistent ops ->
  message_op op = Some i ->
  let s' := (run g (ops ++ [op]) s w).1 in
  Forall (fun c => cid c = i -> aggregate_exact c) (conversations s')
  /\ Forall aggregate_ok (conversations s').
Proof.
  intros g Hs Hops Hop s'. subst s'. split.
  - rewrite run_app, run_cons. simpl.
    pose proof (run_aggregate_ok d wi ops s w Hs Hops) as Hmid. fold g in Hmid.
    destruct (per_conversation op) as [f|] eqn:Hf;
      [|destruct op; discriminate].
    rewrite (exec_per_conversation g op f _ _ Hf). simpl.
    eapply mapE_Forall; [|exact Hmid]. intros c w' Hc Hi.
    rewrite (callback_cid op) in Hi by done.
    by apply (callback_aggregate_exact op f i).
  - apply run_aggregate_ok; [exact Hs|].
    apply Forall_app. split; [exact Hops|].
    constructor; [|constructor]. by destruct op.
Qed.

Lemma aggregate_exact_after_message_ops_witness :
  let s := (run sample_globals
              ([OAddMessage "default" (sample_message "m1" user (Some 3));
                OAddMessage "default" (sample_message "m2" assistant (Some 5))]
               ++ [ORemoveMessage "default" "m1"])
              (initial_state sample_globals) sample_world').1 in
  Forall (fun c => cid c = "default" -> aggregate_exact c) (conversations s)
  /\ Forall aggregate_ok (conversations s).
Proof.
  apply (aggregate_exact_after_message_ops "gpt-4" sample_world
           [OAddMessage "default" (sample_message "m1" user (Some 3));
            OAddMessage "default" (sample_message "m2" assistant (Some 5))]
           (ORemoveMessage "default" "m1") "default"
           (initial_state sample_globals) sample_world').
  - repeat constructor.
  - repeat constructor.
  - reflexivity.
Defined.

(** ** Conversation ids *)

Lemma exec_ids_unique d wi op s w :
  let g := (module_init d wi).1 in
  ids_unique s -> adds_fresh g [op] s w -> ids_unique (exec g op s w).1.
Proof.
  intros g. unfold ids_unique. intros Hs [Hop _].
  destruct (per_conversation op) as [f|] eqn:Hf.
  - rewrite (exec_per_conversation g op f s w Hf). simpl.
    rewrite (mapE_proj cid cid); [done|]. intros c w' _.
    by apply (callback_cid op).
  - destruct op; try discriminate; simpl.
    + rewrite fmap_take. apply NoDup_cons. split.
      * intros Hin. apply Hop. by eapply subseteq_take.
      * eapply sublist_NoDup; [exact Hs|apply sublist_take].
    + eapply sublist_NoDup; [exact Hs|]. apply fmap_sublist, sublist_filter.
    + apply NoDup_singleton.
    + exact Hs.
Qed.

(** C8 as stated fails: nothing stops a caller from adding a conversation
    whose id is already in the list. *)
Lemma addConversation_duplicate_id :
  ~ ids_unique
      (run sample_globals
         [OAddConversation (sample_conversation 7%nat "default" None)]
         (initial_state sample_globals) sample_world').1.
Proof.
  unfold ids_unique. intros H. apply NoDup_cons in H as [H _].
  apply H. left.
Qed.

(** C8, amended. Start from a state whose conversation ids are unique and run
    any sequence of operations in which every [addConversation] supplies an
    id that is not in the list at the time of the call: the conversation ids
    of the resulting state are unique. *)
Theorem conversation_ids_unique d wi ops s w :
  let g := (module_init d wi).1 in
  ids_unique s -> adds_fresh g ops s w -> ids_unique (run g ops s w).1.
Proof.
  intros g. revert s w. induction ops as [|op ops IH]; intros s w Hs Hops.
  - exact Hs.
  - destruct Hops as [Hop Hops]. rewrite run_cons. apply IH; [|exact Hops].
    apply exec_ids_unique; [exact Hs|]. by split.
Qed.

Lemma conversation_ids_unique_witness :
  ids_unique
    (run sample_globals
       [OAddConversation (sample_conversation 7%nat "c1" None);
        OAddMessage "c1" (sample_message "m1" user (Some 3));
        OAddConversation (sample_conversation 8%nat "c2" None);
        ODeleteConversation "default";
        OAddConversation (sample_conversation 9%nat "default" None)]
       (initial_state sample_globals) sample_world').1.
Proof.
  apply (conversation_ids_unique "gpt-4" sample_world).
  - apply NoDup_singleton.
  - simpl. repeat split; intros H; repeat (apply elem_of_cons in H as [H|H]; [discriminate H|]); by apply elem_of_nil in H.
Defined.

(** ** Incremental and recomputed aggregates *)

Lemma recompute_ops_exact op f i s w :
  per_conversation op = Some f -> message_op op = Some i ->
  (forall m, op ≠ OAddMessage i m) ->
  Forall (fun c' => cid c' = i -> aggregate_exact c')
    (mapE f (conversations s) w).1.
Proof.
  intros Hf Hi Hadd.
  apply (mapE_Forall (fun _ => True)); [|by apply Forall_true].
  intros c w' _ Hc. rewrite (callback_cid op) in Hc by done.
  by apply (recompute_aggregate_exact op f i).
Qed.

(** C9 as stated fails in the arithmetic of the source: a stored aggregate of
    2^53 over one message of 2^53 - 1 tokens is stale, and after [addMessage]
    of a 1-token message the stored value (2^53 + 1, rounded to 2^53) is the
    sum over the messages; a stored [NaN] over no messages is read as 0 and
    becomes the sum as well. *)
Lemma addMessage_repairs_stale_aggregate :
  (let stored := Some 9007199254740992%float in
   let counts := [Some 9007199254740991%float] in
   let count := Some 1%float in
   (js_or_zero stored =? sumTokens_double counts)%float = false
   /\ addMessage_cacheTokensCount_double stored count
      = sumTokens_double (counts ++ [count]))
  /\ (let stored := Some (0 / 0)%float in
      let count := Some 1%float in
      is_nan (0 / 0)%float = true
      /\ addMessage_cacheTokensCount_double stored count
         = sumTokens_double ([] ++ [count])).
Proof. repeat split. Qed.

(** C9, amended. Whatever aggregate a conversation stores, [addMessage] does
    not recompute it: it stores the old value (absent read as 0) plus the new
    message's count, while the sum over the messages grows by that same
    count. As long as the values are non-negative integers and both
    additions stay at or below 2^53, the gap between the stored value and the
    sum therefore stays as it was, and a stale aggregate stays stale.
    [editMessage], [removeMessage] and [replaceMessages] store the exact sum
    over the resulting messages. *)
Theorem aggregate_incremental_or_recomputed i s w :
  (forall m,
     Forall2
       (fun c c' =>
          cid c = i ->
          conv_cacheTokensCount (obj_fields c')
          = Some (or_zero (conv_cacheTokensCount (obj_fields c))
                  + or_zero (msg_cacheTokensCount m))
          /\ sumTokens (conv_messages (obj_fields c'))
             = sumTokens (conv_messages (obj_fields c))
               + or_zero (msg_cacheTokensCount m)
          /\ (adds_exactly c m ->
              or_zero (conv_cacheTokensCount (obj_fields c'))
              - sumTokens (conv_messages (obj_fields c'))
              = or_zero (conv_cacheTokensCount (obj_fields c))
                - sumTokens (conv_messages (obj_fields c))
              /\ (~ aggregate_ok c -> ~ aggregate_ok c')))
       (conversations s) (conversations (addMessage i m s w).1))
  /\ (forall j u,
        Forall (fun c' => cid c' = i -> aggregate_exact c')
          (conversations (editMessage i j u s w).1))
  /\ (forall j,
        Forall (fun c' => cid c' = i -> aggregate_exact c')
          (conversations (removeMessage i j s w).1))
  /\ (forall ms,
        Forall (fun c' => cid c' = i -> aggregate_exact c')
          (conversations (replaceMessages i ms s w).1)).
Proof.
  split; [|split; [|split]].
  - intros m. unfold addMessage. rewrite setE_mapE. simpl.
    apply mapE_Forall2. intros c w' _ Hc.
    unfold aggregate_ok. eff. rewrite bool_decide_eq_false_2 by tauto. simpl.
    rewrite sumTokens_app. split; [done|]. split; [done|].
    intros _. split; lia.
  - intros j u. unfold editMessage. rewrite setE_mapE.
    by apply (recompute_ops_exact (OEditMessage i j u)).
  - intros j. unfold removeMessage. rewrite setE_mapE.
    by apply (recompute_ops_exact (ORemoveMessage i j)).
  - intros ms. unfold replaceMessages. rewrite setE_mapE.
    by apply (recompute_ops_exact (OReplaceMessages i ms)).
Qed.

Lemma aggregate_incremental_or_recomputed_witness :
  let c := sample_conversation 7%nat "c1" (Some 100) in
  let m := sample_message "m1" user (Some 3) in
  let s := addConversation c (initial_state sample_globals) in
  let s1 := (addMessage "c1" m s sample_world').1 in
  let s2 := (editMessage "c1" "m1" empty_partial s1 sample_world').1 in
  adds_exactly c m
  /\ (conv_cacheTokensCount ∘ obj_fields) <$> head (conversations s1)
     = Some (Some 103)
  /\ (sumTokens ∘ conv_messages ∘ obj_fields) <$> head (conversations s1)
     = Some 3
  /\ ~ Forall aggregate_ok (conversations s1)
  /\ (conv_cacheTokensCount ∘ obj_fields) <$> head (conversations s2)
     = Some (Some 3).
Proof.
  intros c m s s1 s2.
  assert (adds_exactly c m) as Hrange.
  { unfold adds_exactly. vm_compute. repeat split; try discriminate.
    constructor. }
  destruct (aggregate_incremental_or_recomputed "c1" s sample_world')
    as (Hadd & _).
  specialize (Hadd m).
  apply Forall2_cons_1 in Hadd as [Hadd _].
  destruct (Hadd eq_refl) as (Hc & Hsum & Hgap).
  destruct (Hgap Hrange) as [_ Hstale].
  destruct (aggregate_incremental_or_recomputed "c1" s1 sample_world')
    as (_ & Hedit & _).
  specialize (Hedit "m1" empty_partial).
  apply Forall_inv in Hedit. specialize (Hedit eq_refl).
  split; [exact Hrange|]. split; [exact (f_equal Some Hc)|].
  split; [exact (f_equal Some Hsum)|]. split; [|exact (f_equal Some Hedit)].
  intros Hall. apply Forall_inv in Hall. revert Hall. apply Hstale.
  unfold aggregate_ok. simpl. discriminate.
Defined.

(** ** Untouched conversations keep their identity, except under [addMessage] *)

(* Operations that return [conversation] itself for a non-matching id. *)
Lemma untouched_same_reference g op f i s w :
  per_conversation op = Some f -> target op = Some i ->
  (forall m, op ≠ OAddMessage i m) ->
  Forall2 (fun c c' => cid c ≠ i -> c' = c)
    (conversations s) (conversations (exec g op s w).1).
Proof.
  intros Hf Hi Hadd. rewrite (exec_per_conversation g op f s w Hf). simpl.
  apply mapE_Forall2. intros c w' _ Hne.
  destruct op; simpl in Hi; try discriminate; injection Hi as ->;
    simpl in Hf; injection Hf as <-; eff;
    repeat case_bool_decide; simpl; try congruence.
  by destruct (Hadd message).
Qed.

Lemma deleteConversation_keeps_objects i s :
  conversations (deleteConversation i s) `sublist_of` conversations s.
Proof. apply sublist_filter. Qed.

(* [addMessage] builds a new object for every conversation of the list. *)
Lemma addMessage_reallocates i m s w :
  Forall (fun c => (obj_addr c < next_loc w)%nat) (conversations s) ->
  Forall2 (fun c c' => obj_addr c' ≠ obj_addr c
                       /\ (cid c ≠ i -> obj_fields c' = obj_fields c))
    (conversations s) (conversations (addMessage i m s w).1).
Proof.
  unfold addMessage. rewrite setE_mapE. simpl.
  generalize (conversations s) as l. intros l. revert w.
  induction l as [|c l IH]; intros w Hl; [constructor|].
  rewrite mapE_cons. simpl. inversion Hl as [|? ? Hc Hl']; subst.
  constructor.
  - eff. case_bool_decide; simpl; split; try lia; try done.
  - apply IH. eapply Forall_impl; [exact Hl'|]. intros c0 Hc0.
    eff. case_bool_decide; simpl; lia.
Qed.

(** C3 at work on [addMessage]: adding a message to a conversation id that
    is not the default conversation's returns the default conversation with
    the same fields but as another object (address 2 instead of 0). The
    sibling [setSystemPurposeId] returns the very same object. *)
Theorem addMessage_rebuilds_untouched_conversation :
  let s := initial_state sample_globals in
  let m := sample_message "m1" user (Some 3) in
  let s' := (addMessage "other" m s sample_world').1 in
  let s'' := (setSystemPurposeId "other" "Developer" s sample_world').1 in
  Forall (fun c => cid c ≠ "other") (conversations s)
  /\ obj_fields <$> conversations s' = obj_fields <$> conversations s
  /\ obj_addr <$> conversations s = [0%nat]
  /\ obj_addr <$> conversations s' = [2%nat]
  /\ conversations s' ≠ conversations s
  /\ conversations s'' = conversations s.
Proof.
  repeat split; try reflexivity.
  - repeat constructor. discriminate.
  - discriminate.
Qed.

(** ** Ids that resolve to nothing *)

Lemma filter_keeps_all {A} (P : A -> Prop) `{!forall x, Decision (P x)} l :
  Forall P l -> filter P l = l.
Proof.
  induction 1 as [|x l Hx _ IH]; [done|].
  rewrite filter_cons, decide_True by done. by rewrite IH.
Qed.

Lemma editMessage_msg_miss j u ms w :
  Forall (fun m => msg_id m ≠ j) ms -> (mapE (editMessage_msg j u) ms w).1 = ms.
Proof.
  intros H. apply mapE_id. intros m w' Hm.
  unfold editMessage_msg. rewrite bool_decide_eq_false_2; [done|].
  by apply (proj1 (Forall_forall _ _) H).
Qed.

(** C4 as stated fails: editing a message id that the default conversation
    does not have changes the content of the snapshot (the conversation gets
    [cacheTokensCount: 0] and a new [updated]). *)
Lemma editMessage_missing_message_changes_content :
  let s := initial_state sample_globals in
  content (editMessage "default" "nope" empty_partial s sample_world').1
  ≠ content s.
Proof. discriminate. Qed.

(* a conversation id that no conversation has *)
Lemma missing_conversation_content g op i s w :
  target op = Some i ->
  Forall (fun c => cid c ≠ i) (conversations s) ->
  content (exec g op s w).1 = content s.
Proof.
  intros Hi Hmiss. unfold content.
  destruct (per_conversation op) as [f|] eqn:Hf.
  - rewrite (exec_per_conversation g op f s w Hf). simpl. f_equal.
    apply mapE_proj. intros c w' Hc.
    pose proof (proj1 (Forall_forall _ _) Hmiss c Hc) as Hne.
    destruct op; simpl in Hi; try discriminate; injection Hi as ->;
      simpl in Hf; injection Hf as <-; eff;
      repeat case_bool_decide; simpl; congruence.
  - destruct op; try discriminate. simpl. f_equal.
    simpl in Hi. injection Hi as ->. f_equal. by apply filter_keeps_all.
Qed.

(* a message id that no message of the conversation has *)
Lemma missing_message_restamp g op i j s w :
  (op = ORemoveMessage i j \/ exists u, op = OEditMessage i j u) ->
  Forall (fun c => cid c = i ->
                   Forall (fun m => msg_id m ≠ j)
                     (conv_messages (obj_fields c)))
    (conversations s) ->
  Forall2 (fun c c' =>
             (cid c ≠ i -> c' = c)
             /\ (cid c = i ->
                 exists t, obj_fields c' = restamp (obj_fields c) t))
    (conversations s) (conversations (exec g op s w).1).
Proof.
  intros Hop Hmiss.
  assert (exists f, per_conversation op = Some f
                    /\ (forall u, op = OEditMessage i j u ->
                                  f = editMessage_conv i j u)
                    /\ (op = ORemoveMessage i j -> f = removeMessage_conv i j))
    as (f & Hf & Hedit & Hrem).
  { destruct Hop as [->|[u ->]]; eexists; (split; [reflexivity|]);
      split; try discriminate; try done. by intros u' [= ->]. }
  rewrite (exec_per_conversation g op f s w Hf). simpl.
  apply mapE_Forall2. intros c w' Hc.
  pose proof (proj1 (Forall_forall _ _) Hmiss c Hc) as Hms.
  destruct Hop as [->|[u ->]].
  - rewrite (Hrem eq_refl). unfold removeMessage_conv.
    split; intros Hi.
    + by rewrite bool_decide_eq_false_2.
    + rewrite bool_decide_eq_true_2 by done.
      rewrite filter_keeps_all by auto. eff. by eexists.
  - rewrite (Hedit u eq_refl). unfold editMessage_conv.
    split; intros Hi.
    + by rewrite bool_decide_eq_false_2.
    + rewrite bool_decide_eq_true_2 by done. unfold bind at 1.
      pose proof (editMessage_msg_miss j u _ w' (Hms Hi)) as Hsame.
      destruct (mapE (editMessage_msg j u)
                  (conv_messages (obj_fields c)) w') as [ms w1].
      simpl in Hsame. subst ms. eff. by eexists.
Qed.

(** ** Editing twice *)

Lemma merge_message_twice m u t t' :
  strip_message (merge_message m u t)
  = strip_message (merge_message (merge_message m u t) u t').
Proof.
  unfold strip_message, merge_message. simpl.
  destruct u as [[] [] [] [] [] [] [] [] [] [] []]; reflexivity.
Qed.

Lemma editMessage_msg_edited j u m w :
  edited_msg j u (editMessage_msg j u m w).1.
Proof.
  unfold edited_msg, editMessage_msg. case_bool_decide; simpl.
  - intros _. by eexists _, _.
  - done.
Qed.

Lemma editMessage_msg_again j u m1 w :
  edited_msg j u m1 ->
  same_but_updated_msg j m1 (editMessage_msg j u m1 w).1.
Proof.
  unfold edited_msg, same_but_updated_msg, editMessage_msg.
  intros H. case_bool_decide as Hj; simpl; [|done].
  destruct (H Hj) as (m & t & ->). apply merge_message_twice.
Qed.

Lemma same_but_updated_sumTokens j ms1 ms2 :
  Forall2 (same_but_updated_msg j) ms1 ms2 -> sumTokens ms1 = sumTokens ms2.
Proof.
  unfold sumTokens. generalize 0. intros z H. revert z.
  induction H as [|m1 m2 l1 l2 Hm _ IH]; intros z; [done|]. simpl.
  assert (msg_cacheTokensCount m1 = msg_cacheTokensCount m2) as ->; [|apply IH].
  unfold same_but_updated_msg in Hm. case_bool_decide; [|by subst].
  by apply (f_equal msg_cacheTokensCount) in Hm.
Qed.

Lemma editMessage_conv_hit i j u c w :
  cid c = i ->
  exists t,
    obj_fields (editMessage_conv i j u c w).1
    = let ms := (mapE (editMessage_msg j u)
                   (conv_messages (obj_fields c)) w).1 in
      {| conv_id := conv_id (obj_fields c);
         conv_name := conv_name (obj_fields c);
         conv_messages := ms;
         conv_systemPurposeId := conv_systemPurposeId (obj_fields c);
         conv_chatModelId := conv_chatModelId (obj_fields c);
         conv_userTitle := conv_userTitle (obj_fields c);
         conv_autoTitle := conv_autoTitle (obj_fields c);
         conv_cacheTokensCount := Some (sumTokens ms);
         conv_created := conv_created (obj_fields c);
         conv_updated := Some t |}.
Proof.
  intros Hi. unfold editMessage_conv. rewrite bool_decide_eq_true_2 by done.
  unfold bind at 1.
  destruct (mapE (editMessage_msg j u) (conv_messages (obj_fields c)) w)
    as [ms w1]. eff. by eexists.
Qed.

Lemma editMessage_conv_miss i j u c w :
  cid c ≠ i -> (editMessage_conv i j u c w).1 = c.
Proof.
  intros Hi. unfold editMessage_conv. by rewrite bool_decide_eq_false_2.
Qed.

Lemma editMessage_conv_edited i j u c w :
  edited_conv i j u (editMessage_conv i j u c w).1.
Proof.
  unfold edited_conv, aggregate_exact, cid. intros Hi'.
  destruct (decide (cid c = i)) as [Hi|Hi].
  - destruct (editMessage_conv_hit i j u c w Hi) as [t ->]. simpl.
    split; [done|].
    apply (mapE_Forall (fun _ => True)); [|by apply Forall_true].
    intros m w' _. apply editMessage_msg_edited.
  - rewrite editMessage_conv_miss in Hi' by done. by destruct Hi.
Qed.

Lemma editMessage_conv_again i j u c1 w :
  edited_conv i j u c1 ->
  same_but_updated_conv i j c1 (editMessage_conv i j u c1 w).1.
Proof.
  unfold edited_conv, same_but_updated_conv, aggregate_exact.
  intros H. case_bool_decide as Hi; [|by rewrite editMessage_conv_miss].
  destruct (H Hi) as [Hagg Hms].
  destruct (editMessage_conv_hit i j u c1 w Hi) as [t ->]. simpl.
  assert (Forall2 (same_but_updated_msg j) (conv_messages (obj_fields c1))
            (mapE (editMessage_msg j u) (conv_messages (obj_fields c1)) w).1)
    as H2.
  { apply mapE_Forall2. intros m w' Hm. apply editMessage_msg_again.
    by apply (proj1 (Forall_forall _ _) Hms). }
  split; [|exact H2].
  unfold strip_conversation. simpl. rewrite Hagg.
  by rewrite (same_but_updated_sumTokens j _ _ H2).
Qed.

(** C6. Applying [editMessage] a second time with the same arguments changes
    nothing but [updated] stamps: the active id is the same, conversations
    with another id are the same objects, and a conversation with the given
    id has the same fields except [updated] and the same messages, except
    for [updated] on the messages with the given message id. *)
Theorem editMessage_idempotent i j u s w w' :
  let s1 := (editMessage i j u s w).1 in
  let s2 := (editMessage i j u s1 w').1 in
  activeConversationId s2 = activeConversationId s1
  /\ Forall2 (same_but_updated_conv i j) (conversations s1) (conversations s2).
Proof.
  intros s1 s2. subst s1 s2. unfold editMessage. rewrite !setE_mapE. simpl.
  split; [done|].
  apply mapE_Forall2. intros c1 w1 Hc1. apply editMessage_conv_again.
  revert c1 Hc1. apply Forall_forall.
  apply (mapE_Forall (fun _ => True)); [|by apply Forall_true].
  intros c w2 _. apply editMessage_conv_edited.
Qed.

(* The payload may rename the message: the second call then finds no message
   with the old id and only re-stamps the conversation. *)
Example editMessage_twice_renaming :
  let u := {| p_id := Some "m9"; p_text := Some "bye"; p_sender := None;
              p_avatar := None; p_typing := None; p_role := None;
              p_modelId := None; p_purposeId := None;
              p_cacheTokensCount := Some (Some 7); p_created := None;
              p_updated := None |} in
  let s := (addMessage "default" (sample_message "m1" user (Some 3))
              (initial_state sample_globals) sample_world').1 in
  let s1 := (editMessage "default" "m1" u s sample_world').1 in
  let s2 := (editMessage "default" "m1" u s1 sample_world').1 in
  (fun c => msg_id <$> conv_messages (obj_fields c)) <$> conversations s1
  = [["m9"]]
  /\ (conv_messages ∘ obj_fields) <$> conversations s2
     = (conv_messages ∘ obj_fields) <$> conversations s1
  /\ (conv_cacheTokensCount ∘ obj_fields) <$> conversations s2 = [Some 7]
  /\ (conv_cacheTokensCount ∘ obj_fields) <$> conversations s1 = [Some 7].
Proof. repeat split. Qed.

(** * Further properties of the store *)

(** ** Resolving the active conversation *)

Lemma find_first_match (P : ConversationObj -> bool) l c :
  find P l = Some c ->
  exists l1 l2 : list ConversationObj,
    l = (l1 ++ c :: l2)%list /\ P c = true /\ Forall (fun x => P x = false) l1.
Proof.
  induction l as [|x l IH]; simpl; [done|].
  destruct (P x) eqn:Hx.
  - intros [= ->]. by exists [], l.
  - intros (l1 & l2 & -> & Hc & Hl1)%IH.
    exists (x :: l1), l2. repeat split; [done|]. by constructor.
Qed.

Lemma resolves_find s :
  resolves s ->
  exists c,
    find (fun c => bool_decide (Some (cid c) = activeConversationId s))
      (conversations s) = Some c.
Proof.
  unfold resolves. induction 1 as [c l Hc|c l _ IH]; simpl.
  - rewrite bool_decide_eq_true_2 by done. by eexists.
  - case_bool_decide; [by eexists|exact IH].
Qed.

(** X1. When some conversation has the active id, [useActiveConversation]
    returns the first conversation of the list that has it: a member of the
    list, preceded only by conversations with other ids. *)
Theorem useActiveConversation_first_match g s :
  resolves s ->
  exists l1 l2 : list ConversationObj,
    conversations s = (l1 ++ useActiveConversation g s :: l2)%list
    /\ Some (cid (useActiveConversation g s)) = activeConversationId s
    /\ Forall (fun c => Some (cid c) ≠ activeConversationId s) l1.
Proof.
  intros [c Hc]%resolves_find. unfold useActiveConversation. rewrite Hc. simpl.
  destruct (find_first_match _ _ _ Hc) as (l1 & l2 & Hl & Hp & Hl1).
  exists l1, l2. split; [done|]. split.
  - by apply bool_decide_eq_true_1 in Hp.
  - eapply Forall_impl; [exact Hl1|]. intros x Hx.
    by apply bool_decide_eq_false_1 in Hx.
Qed.

Lemma useActiveConversation_first_match_witness :
  let s := setActiveConversationId "c2"
             (addConversation (sample_conversation 8%nat "c2" None)
                (addConversation (sample_conversation 7%nat "c1" None)
                   (initial_state sample_globals))) in
  exists l1 l2 : list ConversationObj,
    conversations s
    = (l1 ++ useActiveConversation sample_globals s :: l2)%list
    /\ Some (cid (useActiveConversation sample_globals s))
       = activeConversationId s
    /\ Forall (fun c => Some (cid c) ≠ activeConversationId s) l1.
Proof.
  intros s. apply (useActiveConversation_first_match sample_globals s).
  by apply Exists_cons_hd.
Defined.

(** X2. A conversation that was just added and made active is the one
    [useActiveConversation] returns, as the same object, even when an older
    conversation has the same id. *)
Theorem addConversation_then_activate g c s :
  useActiveConversation g
    (setActiveConversationId (cid c) (addConversation c s)) = c.
Proof.
  unfold useActiveConversation. simpl. by rewrite bool_decide_eq_true_2.
Qed.

(** X17. In the store's default state the active conversation is the default
    conversation itself, with id "default"; the sentinel is another object
    with another id and is not in the list. *)
Theorem initial_state_resolves d w :
  let g := (module_init d w).1 in
  let s := initial_state g in
  conversations s = [useActiveConversation g s]
  /\ activeConversationId s = Some "default"
  /\ cid (useActiveConversation g s) = "default"
  /\ (errorConversation g ∉ conversations s)
  /\ obj_addr (errorConversation g) ≠ obj_addr (useActiveConversation g s).
Proof.
  intros g s. repeat split; try done.
  - intros H. apply elem_of_cons in H as [H|H].
    + discriminate H.
    + by apply elem_of_nil in H.
Qed.

(** ** Deleting conversations *)


(** ** The number of conversations *)

Lemma exec_length g op s w :
  (length (conversations (exec g op s w).1)
   <= match op with
      | OAddConversation _ => 20
      | OResetConversations => length (defaultConversations g)
      | _ => length (conversations s)
      end)%nat.
Proof.
  destruct (per_conversation op) as [f|] eqn:Hf.
  - rewrite (exec_per_conversation g op f s w Hf). simpl.
    rewrite mapE_length. by destruct op.
  - destruct op; try discriminate; simpl.
    + rewrite length_take. lia.
    + apply length_filter.
    + done.
    + done.
Qed.

(** X4. Only [addConversation] and [resetConversations] can make the list
    longer, and from a state with at most 20 conversations no sequence of
    operations leads to a state with more than 20. *)
Theorem conversations_bounded d wi ops s w :
  let g := (module_init d wi).1 in
  (forall op,
     (forall c, op ≠ OAddConversation c) -> op ≠ OResetConversations ->
     (length (conversations (exec g op s w).1) <= length (conversations s))%nat)
  /\ ((length (conversations s) <= 20)%nat ->
      (length (conversations (run g ops s w).1) <= 20)%nat).
Proof.
  intros g. split.
  - intros op Hadd Hreset. pose proof (exec_length g op s w) as H.
    destruct op; try done. by destruct (Hadd conversation).
  - revert s w. induction ops as [|op ops IH]; intros s w Hs; [done|].
    rewrite run_cons. apply IH.
    pose proof (exec_length g op s w) as H.
    destruct op; simpl in H |- *; try lia.
Qed.

Lemma conversations_bounded_witness :
  (length
     (conversations
        (run sample_globals
           ((OAddConversation <$> scenario_conversations)
            ++ [ODeleteConversation "c3"; OResetConversations;
                OAddMessage "default" (sample_message "m1" user None)])%list
           (initial_state sample_globals) sample_world').1) <= 20)%nat.
Proof.
  apply (conversations_bounded "gpt-4" sample_world). simpl. lia.
Defined.

(** ** What the per-conversation operations keep *)

(** X5. The six operations that map over the list ([setChatModelId],
    [setSystemPurposeId], [addMessage], [editMessage], [removeMessage],
    [replaceMessages]) keep the number and order of the conversations and
    never change a conversation's id, name, creation time or titles. *)
Theorem per_conversation_keeps_identity g op s w :
  is_Some (per_conversation op) ->
  conv_identity <$> conversations (exec g op s w).1
  = conv_identity <$> conversations s.
Proof.
  intros [f Hf]. rewrite (exec_per_conversation g op f s w Hf). simpl.
  apply mapE_proj. intros c w' _. unfold conv_identity.
  callback_cases op Hf; reflexivity.
Qed.

Lemma per_conversation_keeps_identity_witness :
  conv_identity <$>
    conversations
      (exec sample_globals
         (OEditMessage "default" "m1" empty_partial)
         (initial_state sample_globals) sample_world').1
  = conv_identity <$> conversations (initial_state sample_globals).
Proof.
  apply (per_conversation_keeps_identity sample_globals). by eexists.
Defined.

(** X6. The index view [useConversationNames] is not affected by the message
    operations, by [setChatModelId] or by [setActiveConversationId];
    [setSystemPurposeId] changes exactly the purpose shown for the
    conversations with the given id. *)
Theorem useConversationNames_stable g op s w :
  match op with
  | OAddConversation _ | ODeleteConversation _ | OResetConversations => True
  | OSetSystemPurposeId i p =>
      useConversationNames (exec g op s w).1
      = (fun '(id, name, purpose) =>
           (id, name, if bool_decide (id = i) then p else purpose))
        <$> useConversationNames s
  | _ => useConversationNames (exec g op s w).1 = useConversationNames s
  end.
Proof.
  destruct (per_conversation op) as [f|] eqn:Hf.
  - assert (useConversationNames (exec g op s w).1
            = (fun c =>
                 (cid c, conv_name (obj_fields c),
                  match op with
                  | OSetSystemPurposeId i p =>
                      if bool_decide (cid c = i) then p
                      else conv_systemPurposeId (obj_fields c)
                  | _ => conv_systemPurposeId (obj_fields c)
                  end)) <$> conversations s) as H.
    { rewrite (exec_per_conversation g op f s w Hf).
      unfold useConversationNames. simpl. apply mapE_proj. intros c w' _.
      callback_cases op Hf; reflexivity. }
    destruct op; try done.
    rewrite H. unfold useConversationNames. rewrite <- list_fmap_compose.
    apply list_fmap_ext. intros _ c _. reflexivity.
  - by destruct op.
Qed.

(** ** Setting the configuration of a conversation *)

(** X7. [setChatModelId] and [setSystemPurposeId] leave conversations with
    another id as the same objects; in a conversation with the id they write
    their one field and [updated], and keep the messages, the other setting
    and [cacheTokensCount] as stored: the aggregate is not recomputed. *)
Theorem setters_touch_one_field i s w :
  (forall chatModelId,
     Forall2
       (fun c c' =>
          if bool_decide (cid c = i)
          then conv_chatModelId (obj_fields c') = chatModelId
               /\ is_Some (conv_updated (obj_fields c'))
               /\ conv_systemPurposeId (obj_fields c')
                  = conv_systemPurposeId (obj_fields c)
               /\ conv_messages (obj_fields c') = conv_messages (obj_fields c)
               /\ conv_cacheTokensCount (obj_fields c')
                  = conv_cacheTokensCount (obj_fields c)
          else c' = c)
       (conversations s) (conversations (setChatModelId i chatModelId s w).1))
  /\ (forall systemPurposeId,
        Forall2
          (fun c c' =>
             if bool_decide (cid c = i)
             then conv_systemPurposeId (obj_fields c') = systemPurposeId
                  /\ is_Some (conv_updated (obj_fields c'))
                  /\ conv_chatModelId (obj_fields c')
                     = conv_chatModelId (obj_fields c)
                  /\ conv_messages (obj_fields c')
                     = conv_messages (obj_fields c)
                  /\ conv_cacheTokensCount (obj_fields c')
                     = conv_cacheTokensCount (obj_fields c)
             else c' = c)
          (conversations s)
          (conversations (setSystemPurposeId i systemPurposeId s w).1)).
Proof.
  split; intros x.
  - unfold setChatModelId. rewrite setE_mapE. simpl.
    apply mapE_Forall2. intros c w' _. eff.
    case_bool_decide; simpl; [|done]. by repeat split.
  - unfold setSystemPurposeId. rewrite setE_mapE. simpl.
    apply mapE_Forall2. intros c w' _. eff.
    case_bool_decide; simpl; [|done]. by repeat split.
Qed.

(** ** The active configuration *)

Lemma find_mapE_cid (a : option string) (f : ConversationObj -> Eff ConversationObj) l w c :
  (forall x w', cid (f x w').1 = cid x) ->
  find (fun c => bool_decide (Some (cid c) = a)) l = Some c ->
  exists w',
    find (fun c => bool_decide (Some (cid c) = a)) (mapE f l w).1
    = Some (f c w').1.
Proof.
  intros Hcid. revert w. induction l as [|x l IH]; intros w; [done|].
  rewrite mapE_cons. simpl. rewrite Hcid.
  case_bool_decide.
  - intros [= ->]. by eexists.
  - apply IH.
Qed.

(** X8. When the active id resolves, a value written through a setter of
    [useActiveConfiguration] is the value the accessor reads afterwards, and
    the other setting reads as before. *)
Theorem useActiveConfiguration_set_get g s w :
  resolves s ->
  let cfg := useActiveConfiguration g s in
  (forall p,
     let cfg' := useActiveConfiguration g (cfg_setSystemPurposeId cfg p s w).1 in
     cfg_systemPurposeId cfg' = p /\ cfg_chatModelId cfg' = cfg_chatModelId cfg)
  /\ (forall m,
        let cfg' := useActiveConfiguration g (cfg_setChatModelId cfg m s w).1 in
        cfg_chatModelId cfg' = m
        /\ cfg_systemPurposeId cfg' = cfg_systemPurposeId cfg).
Proof.
  intros [c Hc]%resolves_find cfg. subst cfg.
  unfold useActiveConfiguration, useActiveConversation.
  rewrite Hc. simpl. split.
  - intros p. unfold setSystemPurposeId. rewrite setE_mapE. simpl.
    destruct (find_mapE_cid (activeConversationId s)
                (setSystemPurposeId_conv (cid c) p) (conversations s) w c)
      as [w' ->]; [|exact Hc|].
    + intros x w'. by apply (callback_cid (OSetSystemPurposeId (cid c) p)).
    + simpl. eff. by rewrite bool_decide_eq_true_2.
  - intros m. unfold setChatModelId. rewrite setE_mapE. simpl.
    destruct (find_mapE_cid (activeConversationId s)
                (setChatModelId_conv (cid c) m) (conversations s) w c)
      as [w' ->]; [|exact Hc|].
    + intros x w'. by apply (callback_cid (OSetChatModelId (cid c) m)).
    + simpl. eff. by rewrite bool_decide_eq_true_2.
Qed.

Lemma useActiveConfiguration_set_get_witness :
  let s := initial_state sample_globals in
  let cfg := useActiveConfiguration sample_globals s in
  cfg_systemPurposeId
    (useActiveConfiguration sample_globals
       (cfg_setSystemPurposeId cfg "Developer" s sample_world').1)
  = "Developer".
Proof.
  intros s cfg.
  apply (proj1 (useActiveConfiguration_set_get sample_globals s sample_world'
                  (Exists_cons_hd _ _ _ eq_refl))).
Defined.

(** X9. When the active id resolves to nothing, [useActiveConfiguration]
    reads the sentinel's settings ("Developer" and the default model), and
    its setters aim at the sentinel's id "error-missing": they leave a store
    with no such conversation exactly as it is. *)
Theorem useActiveConfiguration_dangling d wi s w :
  let g := (module_init d wi).1 in
  dangling s ->
  Forall (fun c => cid c ≠ "error-missing") (conversations s) ->
  let cfg := useActiveConfiguration g s in
  cfg_systemPurposeId cfg = "Developer"
  /\ cfg_chatModelId cfg = d
  /\ (forall p, (cfg_setSystemPurposeId cfg p s w).1 = s)
  /\ (forall m, (cfg_setChatModelId cfg m s w).1 = s).
Proof.
  intros g Hd Hmiss cfg. subst cfg. unfold useActiveConfiguration.
  rewrite (find_none_dangling g s Hd).
  split; [done|]. split; [done|].
  assert (forall x, x ∈ conversations s -> cid x ≠ cid (errorConversation g))
    as Hne by (intros x; apply (proj1 (Forall_forall _ _) Hmiss)).
  split; intros x; simpl.
  - unfold setSystemPurposeId. rewrite setE_mapE.
    rewrite mapE_id; [by destruct s|]. intros c w' Hc.
    unfold setSystemPurposeId_conv. rewrite bool_decide_eq_false_2; [done|].
    by apply Hne.
  - unfold setChatModelId. rewrite setE_mapE.
    rewrite mapE_id; [by destruct s|]. intros c w' Hc.
    unfold setChatModelId_conv. rewrite bool_decide_eq_false_2; [done|].
    by apply Hne.
Qed.

Lemma useActiveConfiguration_dangling_witness :
  let s := setActiveConversationId "gone" (initial_state sample_globals) in
  let cfg := useActiveConfiguration sample_globals s in
  cfg_systemPurposeId cfg = "Developer"
  /\ cfg_chatModelId cfg = "gpt-4"
  /\ (forall p, (cfg_setSystemPurposeId cfg p s sample_world').1 = s)
  /\ (forall m, (cfg_setChatModelId cfg m s sample_world').1 = s).
Proof.
  intros s.
  apply (useActiveConfiguration_dangling "gpt-4" sample_world s sample_world').
  - repeat constructor. discriminate.
  - repeat constructor. discriminate.
Defined.

(** ** Two maps in a row, and two maps of one list *)

Lemma mapE_twice_Forall2 {A B C} (R : A -> C -> Prop)
  (f1 : A -> Eff B) (f2 : B -> Eff C) l w w' :
  (forall x w1 w2, x ∈ l -> R x (f2 (f1 x w1).1 w2).1) ->
  Forall2 R l (mapE f2 (mapE f1 l w).1 w').1.
Proof.
  intros H.
  eapply (Forall2_trans (fun x y => x ∈ l /\ exists w1, y = (f1 x w1).1)
            (fun y z => exists w2, z = (f2 y w2).1)).
  - intros x y z [Hx [w1 ->]] [w2 ->]. by apply H.
  - apply mapE_Forall2. intros x w1 Hx. split; [done|]. by eexists.
  - apply mapE_Forall2. intros y w2 _. by eexists.
Qed.

Lemma Forall2_same_source {A B C} (R1 : A -> B -> Prop) (R2 : A -> C -> Prop)
  (Q : B -> C -> Prop) l k1 k2 :
  (forall x y z, R1 x y -> R2 x z -> Q y z) ->
  Forall2 R1 l k1 -> Forall2 R2 l k2 -> Forall2 Q k1 k2.
Proof.
  intros HQ H1. revert k2.
  induction H1 as [|x y l k1 Hxy _ IH]; intros k2 H2.
  - apply Forall2_nil_inv_l in H2 as ->. constructor.
  - apply Forall2_cons_inv_l in H2 as (z & k2' & Hxz & H2 & ->).
    constructor; eauto.
Qed.

Lemma msgs_equiv_refl ms : Forall2 msg_equiv ms ms.
Proof. apply Forall_Forall2_diag, Forall_true. by intros m. Qed.

Lemma fields_equiv_refl c : fields_equiv c c.
Proof. split; [done|apply msgs_equiv_refl]. Qed.

(** ** Messages of a conversation *)

(** X11. Adding a message whose id no message of the target conversation has,
    and then removing that id, gives back every conversation's fields,
    except that a target conversation has a new [updated] stamp and its
    aggregate recomputed from its (original) messages. *)
Theorem addMessage_then_removeMessage i m s w w' :
  Forall (fun c => cid c = i ->
                   Forall (fun m0 => msg_id m0 ≠ msg_id m)
                     (conv_messages (obj_fields c)))
    (conversations s) ->
  let s1 := (addMessage i m s w).1 in
  let s2 := (removeMessage i (msg_id m) s1 w').1 in
  activeConversationId s2 = activeConversationId s
  /\ Forall2
       (fun c c2 =>
          if bool_decide (cid c = i)
          then exists t, obj_fields c2 = restamp (obj_fields c) t
          else obj_fields c2 = obj_fields c)
       (conversations s) (conversations s2).
Proof.
  intros Hfresh s1 s2. subst s1 s2.
  unfold addMessage, removeMessage. rewrite !setE_mapE. simpl.
  split; [done|].
  apply mapE_twice_Forall2. intros c w1 w2 Hc.
  pose proof (proj1 (Forall_forall _ _) Hfresh c Hc) as Hms.
  simpl in Hms. unfold addMessage_conv.
  destruct (decide (cid c = i)) as [Hi|Hi].
  - rewrite (bool_decide_eq_false_2 (cid c ≠ i)) by (intros Hne; by apply Hne).
    rewrite bool_decide_eq_true_2 by done.
    unfold removeMessage_conv. eff.
    rewrite bool_decide_eq_true_2 by done. simpl.
    rewrite filter_app, filter_keeps_all by auto.
    rewrite filter_cons.
    rewrite decide_False by (intros Hne; by apply Hne).
    rewrite filter_nil, app_nil_r. by eexists.
  - rewrite (bool_decide_eq_true_2 (cid c ≠ i)) by done.
    rewrite bool_decide_eq_false_2 by done.
    unfold removeMessage_conv. eff.
    by rewrite bool_decide_eq_false_2.
Qed.

Lemma addMessage_then_removeMessage_witness :
  let s := (addMessage "default" (sample_message "m1" user (Some 3))
              (initial_state sample_globals) sample_world').1 in
  let s1 := (addMessage "default" (sample_message "m2" assistant (Some 5))
               s sample_world').1 in
  let s2 := (removeMessage "default" "m2" s1 sample_world').1 in
  Forall2
    (fun c c2 =>
       if bool_decide (cid c = "default")
       then exists t, obj_fields c2 = restamp (obj_fields c) t
       else obj_fields c2 = obj_fields c)
    (conversations s) (conversations s2).
Proof.
  intros s s1 s2.
  apply (addMessage_then_removeMessage "default"
           (sample_message "m2" assistant (Some 5)) s
           sample_world' sample_world').
  repeat constructor. discriminate.
Defined.


(** X13. [replaceMessages] gives the conversations with the id exactly the
    new message list and its sum as aggregate, and leaves the others as the
    same objects; of two replacements of the same id the last one wins: the
    result equals that of the second alone, up to [updated] stamps and
    object identity. *)
Theorem replaceMessages_last_wins i ms1 ms2 s w w' w'' :
  Forall2
    (fun c c' =>
       if bool_decide (cid c = i)
       then conv_messages (obj_fields c') = ms2 /\ aggregate_exact c'
       else c' = c)
    (conversations s) (conversations (replaceMessages i ms2 s w).1)
  /\ state_equiv
       (replaceMessages i ms2 (replaceMessages i ms1 s w).1 w').1
       (replaceMessages i ms2 s w'').1.
Proof.
  unfold replaceMessages, state_equiv. rewrite !setE_mapE. simpl. split.
  - apply mapE_Forall2. intros c w0 _. unfold aggregate_exact. eff.
    by case_bool_decide.
  - split; [done|].
    eapply (Forall2_same_source
              (fun c y => exists w1 w2,
                 y = (replaceMessages_conv i ms2
                        (replaceMessages_conv i ms1 c w1).1 w2).1)
              (fun c z => exists w3, z = (replaceMessages_conv i ms2 c w3).1)).
    + intros c y z (w1 & w2 & ->) (w3 & ->). eff.
      destruct (decide (conv_id (obj_fields c) = i)) as [Hi|Hi].
      * rewrite !(bool_decide_eq_true_2 (conv_id (obj_fields c) = i)) by done.
        simpl. split; [done|apply msgs_equiv_refl].
      * rewrite !(bool_decide_eq_false_2 (conv_id (obj_fields c) = i)) by done.
        simpl. rewrite ?bool_decide_eq_false_2 by done.
        apply fields_equiv_refl.
    + apply mapE_twice_Forall2. intros c w1 w2 _. by eexists _, _.
    + apply mapE_Forall2. intros c w3 _. by eexists.
Qed.

(** ** The clock only shows in [updated] stamps *)

Lemma mapE_Forall2_rel {A B} (R : A -> A -> Prop) (R' : B -> B -> Prop)
  (f : A -> Eff B) l l' w w' :
  (forall x x' w1 w2, R x x' -> R' (f x w1).1 (f x' w2).1) ->
  Forall2 R l l' -> Forall2 R' (mapE f l w).1 (mapE f l' w').1.
Proof.
  intros Hf H. revert w w'.
  induction H as [|x x' l l' Hx _ IH]; intros w w'; [constructor|].
  rewrite !mapE_cons. simpl. constructor; [by apply Hf|apply IH].
Qed.

Lemma msg_equiv_id m m' : msg_equiv m m' -> msg_id m = msg_id m'.
Proof. intros H. by apply (f_equal msg_id) in H. Qed.

Lemma sumTokens_equiv ms ms' :
  Forall2 msg_equiv ms ms' -> sumTokens ms = sumTokens ms'.
Proof.
  unfold sumTokens. generalize 0. intros z H. revert z.
  induction H as [|m m' l l' Hm _ IH]; intros z; [done|]. simpl.
  apply (f_equal msg_cacheTokensCount) in Hm. simpl in Hm.
  rewrite Hm. apply IH.
Qed.

Lemma editMessage_msg_congr j u m m' w w' :
  msg_equiv m m' ->
  msg_equiv (editMessage_msg j u m w).1 (editMessage_msg j u m' w').1.
Proof.
  intros H. unfold editMessage_msg. rewrite <- (msg_equiv_id m m' H).
  case_bool_decide; simpl; [|done].
  unfold msg_equiv, strip_message, merge_message in *. simpl.
  injection H as -> -> -> -> -> -> -> -> -> ->. reflexivity.
Qed.

Lemma fields_equiv_id c c' : fields_equiv c c' -> conv_id c = conv_id c'.
Proof. intros [H _]. by apply (f_equal conv_id) in H. Qed.

(* the callbacks take equivalent conversations to equivalent conversations,
   whatever the clock reads *)
Lemma callback_congr op f c c' w w' :
  per_conversation op = Some f ->
  fields_equiv (obj_fields c) (obj_fields c') ->
  fields_equiv (obj_fields (f c w).1) (obj_fields (f c' w').1).
Proof.
  intros Hf H. pose proof (fields_equiv_id _ _ H) as Hid.
  destruct (decide (target op = Some (cid c))) as [Hi|Hi].
  - destruct H as [Hs Hms]. unfold strip_conversation in Hs.
    injection Hs as _ Hname Hsp Hcm Hut Hat Hcache Hcr.
    destruct op; simpl in Hi; try discriminate; injection Hi as ->;
      simpl in Hf; injection Hf as <-.
    + eff. rewrite <- Hid, !bool_decide_eq_true_2 by done. simpl.
      split; [|done]. unfold strip_conversation. simpl. congruence.
    + eff. rewrite <- Hid, !bool_decide_eq_true_2 by done. simpl.
      split; [|done]. unfold strip_conversation. simpl. congruence.
    + eff. rewrite <- Hid.
      rewrite !bool_decide_eq_false_2 by (intros Hne; by apply Hne). simpl.
      split; [unfold strip_conversation; simpl; congruence|].
      apply Forall2_app; [done|apply msgs_equiv_refl].
    + destruct (editMessage_conv_hit (cid c) messageId updatedMessage c w
                  eq_refl) as [t ->].
      destruct (editMessage_conv_hit (cid c) messageId updatedMessage c' w')
        as [t' ->]; [by symmetry|]. simpl.
      assert (Forall2 msg_equiv
                (mapE (editMessage_msg messageId updatedMessage)
                   (conv_messages (obj_fields c)) w).1
                (mapE (editMessage_msg messageId updatedMessage)
                   (conv_messages (obj_fields c')) w').1) as H2.
      { eapply mapE_Forall2_rel; [|exact Hms].
        intros. by apply editMessage_msg_congr. }
      split; [|exact H2]. unfold strip_conversation. simpl.
      rewrite (sumTokens_equiv _ _ H2). congruence.
    + eff. rewrite <- Hid, !bool_decide_eq_true_2 by done. simpl.
      assert (Forall2 msg_equiv
                (filter (fun m => msg_id m ≠ messageId)
                   (conv_messages (obj_fields c)))
                (filter (fun m => msg_id m ≠ messageId)
                   (conv_messages (obj_fields c')))) as H2.
      { apply Forall2_filter; [|exact Hms].
        intros m m' Hm. by rewrite (msg_equiv_id m m' Hm). }
      split; [|exact H2]. unfold strip_conversation. simpl.
      rewrite (sumTokens_equiv _ _ H2). congruence.
    + eff. rewrite <- Hid, !bool_decide_eq_true_2 by done. simpl.
      split; [|apply msgs_equiv_refl]. unfold strip_conversation. simpl.
      congruence.
  - assert (forall x w0, cid x = cid c -> obj_fields (f x w0).1 = obj_fields x)
      as Hmiss.
    { intros x w0 Hx.
      destruct op; simpl in Hi, Hf; try discriminate; injection Hf as <-; eff;
        repeat case_bool_decide; simpl; congruence. }
    rewrite !Hmiss; [done| |done]. unfold cid. by symmetry.
Qed.

Lemma state_equiv_refl s : state_equiv s s.
Proof.
  split; [done|]. apply Forall_Forall2_diag, Forall_true.
  intros c. apply fields_equiv_refl.
Qed.

Lemma exec_respects_equiv g op s s' w w' :
  state_equiv s s' -> state_equiv (exec g op s w).1 (exec g op s' w').1.
Proof.
  intros [Ha Hc]. unfold state_equiv.
  destruct (per_conversation op) as [f|] eqn:Hf.
  - rewrite !(exec_per_conversation g op f _ _ Hf). simpl. split; [done|].
    eapply mapE_Forall2_rel; [|exact Hc].
    intros c c' w1 w2. by apply (callback_congr op).
  - destruct op; try discriminate; simpl.
    + split; [done|]. constructor; [apply fields_equiv_refl|].
      by apply Forall2_take.
    + split; [done|]. apply Forall2_filter; [|exact Hc].
      intros c c' Hcc. unfold cid. by rewrite (fields_equiv_id _ _ Hcc).
    + split; [done|]. apply (proj2 (state_equiv_refl
                                      (resetConversations g s))).
    + done.
Qed.

(** X15. The clock and the allocator only show in [updated] stamps and in
    object identities: an operation run from two states that are equal up to
    those, in any two worlds, gives two states that are equal up to those. *)
Theorem run_respects_equiv g ops s s' w w' :
  state_equiv s s' -> state_equiv (run g ops s w).1 (run g ops s' w').1.
Proof.
  revert s s' w w'. induction ops as [|op ops IH]; intros s s' w w' H.
  - exact H.
  - rewrite !run_cons. by apply IH, exec_respects_equiv.
Qed.

Lemma run_respects_equiv_witness :
  let s := initial_state sample_globals in
  let ops := [OAddMessage "default" (sample_message "m1" user (Some 3));
              OEditMessage "default" "m1" empty_partial;
              OSetChatModelId "default" "gpt-3.5-turbo"] in
  state_equiv (run sample_globals ops s sample_world).1
    (run sample_globals ops s sample_world').1.
Proof.
  intros s ops. apply run_respects_equiv. apply state_equiv_refl.
Defined.

(** ** Operations on different conversations commute *)

Lemma callback_miss op f i c w :
  per_conversation op = Some f -> target op = Some i -> cid c ≠ i ->
  obj_fields (f c w).1 = obj_fields c.
Proof.
  intros Hf Hi Hc.
  destruct op; simpl in Hi; try discriminate; injection Hi as ->;
    simpl in Hf; injection Hf as <-; eff;
    repeat case_bool_decide; simpl; congruence.
Qed.

Lemma fields_equiv_eq c c' : c = c' -> fields_equiv c c'.
Proof. intros ->. apply fields_equiv_refl. Qed.

(** X16. Two operations of the six that map over the list, aimed at
    different conversation ids, can be run in either order: the resulting
    states are equal up to [updated] stamps and object identity. *)
Theorem different_targets_commute g op1 op2 i k s w w' :
  is_Some (per_conversation op1) -> is_Some (per_conversation op2) ->
  target op1 = Some i -> target op2 = Some k -> i ≠ k ->
  state_equiv (run g [op1; op2] s w).1 (run g [op2; op1] s w').1.
Proof.
  intros [f1 Hf1] [f2 Hf2] Hi Hk Hik.
  rewrite !run_cons. simpl.
  rewrite (exec_per_conversation g op2 f2 _ _ Hf2).
  rewrite (exec_per_conversation g op1 f1 _ _ Hf1).
  rewrite (exec_per_conversation g op1 f1 _ _ Hf1).
  rewrite (exec_per_conversation g op2 f2 _ _ Hf2).
  split; [done|]. simpl.
  eapply (Forall2_same_source
            (fun c y => exists w1 w2, y = (f2 (f1 c w1).1 w2).1)
            (fun c z => exists w3 w4, z = (f1 (f2 c w3).1 w4).1)).
  - intros c y z (w1 & w2 & ->) (w3 & w4 & ->).
    destruct (decide (cid c = i)) as [Hc|Hc].
    + assert (obj_fields (f2 (f1 c w1).1 w2).1 = obj_fields (f1 c w1).1) as ->.
      { apply (callback_miss op2 f2 k); [done|done|].
        rewrite (callback_cid op1) by done. congruence. }
      apply (callback_congr op1); [done|].
      apply fields_equiv_eq. symmetry.
      apply (callback_miss op2 f2 k); [done|done|congruence].
    + assert (obj_fields (f1 (f2 c w3).1 w4).1 = obj_fields (f2 c w3).1) as ->.
      { apply (callback_miss op1 f1 i); [done|done|].
        by rewrite (callback_cid op2). }
      apply (callback_congr op2); [done|].
      apply fields_equiv_eq. by apply (callback_miss op1 f1 i).
  - apply mapE_twice_Forall2. intros c w1 w2 _. by eexists _, _.
  - apply mapE_twice_Forall2. intros c w3 w4 _. by eexists _, _.
Qed.

Lemma different_targets_commute_witness :
  let s := addConversation (sample_conversation 7%nat "c1" None)
             (initial_state sample_globals) in
  state_equiv
    (run sample_globals
       [OAddMessage "c1" (sample_message "m1" user (Some 3));
        OSetChatModelId "default" "gpt-3.5-turbo"] s sample_world').1
    (run sample_globals
       [OSetChatModelId "default" "gpt-3.5-turbo";
        OAddMessage "c1" (sample_message "m1" user (Some 3))] s sample_world').1.
Proof.
  intros s.
  apply (different_targets_commute sample_globals
           (OAddMessage "c1" (sample_message "m1" user (Some 3)))
           (OSetChatModelId "default" "gpt-3.5-turbo") "c1" "default").
  - by eexists.
  - by eexists.
  - reflexivity.
  - reflexivity.
  - discriminate.
Defined.

(** ** Clock readings and addresses used by an operation *)

Lemma world_le_refl w : world_le w w.
Proof. by repeat split. Qed.

Lemma world_le_trans w1 w2 w3 :
  world_le w1 w2 -> world_le w2 w3 -> world_le w1 w3.
Proof.
  intros (Hc1 & Ht1 & Hn1) (Hc2 & Ht2 & Hn2).
  repeat split; [congruence|lia|lia].
Qed.

Lemma mapE_between {A B} (Q : World -> World -> A -> B -> Prop)
  (f : A -> Eff B) l w :
  (forall x w0, world_le w0 (f x w0).2 /\ Q w0 (f x w0).2 x (f x w0).1) ->
  (forall a b a' b' x y,
     world_le a' a -> world_le b b' -> Q a b x y -> Q a' b' x y) ->
  world_le w (mapE f l w).2
  /\ Forall2 (Q w (mapE f l w).2) l (mapE f l w).1.
Proof.
  intros Hf Hmono. revert w. induction l as [|x l IH]; intros w.
  - split; [apply world_le_refl|constructor].
  - rewrite mapE_cons. simpl.
    destruct (Hf x w) as [Hle Hq]. destruct (IH (f x w).2) as [Hle' Hall].
    split; [by eapply world_le_trans|]. constructor.
    + eapply Hmono; [apply world_le_refl|exact Hle'|exact Hq].
    + eapply Forall2_impl; [exact Hall|]. intros y z Hyz.
      eapply Hmono; [exact Hle|apply world_le_refl|exact Hyz].
Qed.

Lemma editMessage_msgs_world j u ms w :
  world_le w (mapE (editMessage_msg j u) ms w).2.
Proof.
  apply (mapE_between (fun _ _ _ _ => True)); [|done].
  intros m w0. split; [|done]. unfold editMessage_msg.
  case_bool_decide; simpl; [|apply world_le_refl].
  repeat split; simpl; lia.
Qed.

Lemma exec_per_conversation_world g op f s w :
  per_conversation op = Some f ->
  (exec g op s w).2 = (mapE f (conversations s) w).2.
Proof.
  intros H.
  destruct op; simpl in H; try discriminate; injection H as <-; simpl;
    unfold setChatModelId, setSystemPurposeId, addMessage, editMessage,
      removeMessage, replaceMessages, setE, bind, ret;
    match goal with |- context [mapE ?f ?l ?w] => by destruct (mapE f l w) end.
Qed.

Lemma editMessage_conv_run i j u c w :
  cid c = i ->
  editMessage_conv i j u c w
  = let r := mapE (editMessage_msg j u) (conv_messages (obj_fields c)) w in
    ({| obj_addr := next_loc r.2;
        obj_fields :=
          {| conv_id := conv_id (obj_fields c);
             conv_name := conv_name (obj_fields c);
             conv_messages := r.1;
             conv_systemPurposeId := conv_systemPurposeId (obj_fields c);
             conv_chatModelId := conv_chatModelId (obj_fields c);
             conv_userTitle := conv_userTitle (obj_fields c);
             conv_autoTitle := conv_autoTitle (obj_fields c);
             conv_cacheTokensCount := Some (sumTokens r.1);
             conv_created := conv_created (obj_fields c);
             conv_updated := Some (clock r.2 (ticks r.2)) |} |},
     mkWorld (clock r.2) (S (ticks r.2)) (S (next_loc r.2))).
Proof.
  intros Hi. unfold editMessage_conv. rewrite bool_decide_eq_true_2 by done.
  unfold bind, spread_messages, Date_now, alloc, ret.
  by destruct (mapE (editMessage_msg j u) (conv_messages (obj_fields c)) w).
Qed.

(* what a callback does to the world, and to one conversation *)
Lemma callback_world op f i c w :
  per_conversation op = Some f -> target op = Some i ->
  world_le w (f c w).2
  /\ ((f c w).1 = c \/
      (next_loc w <= obj_addr (f c w).1 < next_loc (f c w).2)%nat)
  /\ (cid c = i ->
      exists n, (ticks w <= n < ticks (f c w).2)%nat
                /\ conv_updated (obj_fields (f c w).1) = Some (clock w n)).
Proof.
  intros Hf Hi.
  assert (forall (w1 : World) (c1 : ConversationObj) (P : Prop),
            (next_loc w <= obj_addr c1 < next_loc w1)%nat ->
            clock w1 = clock w -> (ticks w <= ticks w1)%nat -> P ->
            world_le w w1
            /\ (c1 = c \/ (next_loc w <= obj_addr c1 < next_loc w1)%nat) /\ P)
    as Hnew.
  { intros w1 c1 P Ha Hc Ht HP. split; [repeat split; [done|lia|lia]|].
    split; [by right|done]. }
  assert (forall P : Prop,
            P -> world_le w w
                 /\ (c = c \/ (next_loc w <= obj_addr c < next_loc w)%nat) /\ P)
    as Hold.
  { intros P HP. split; [apply world_le_refl|]. split; [by left|done]. }
  destruct op; simpl in Hi; try discriminate; injection Hi as ->;
    simpl in Hf; injection Hf as <-.
  - eff. case_bool_decide; simpl; [|by apply Hold].
    apply Hnew; simpl; try lia; try done.
    intros _. eexists. split; [|reflexivity]. lia.
  - eff. case_bool_decide; simpl; [|by apply Hold].
    apply Hnew; simpl; try lia; try done.
    intros _. eexists. split; [|reflexivity]. lia.
  - eff. case_bool_decide; simpl.
    + apply Hnew; simpl; try lia; done.
    + apply Hnew; simpl; try lia; try done.
      intros _. eexists. split; [|reflexivity]. lia.
  - destruct (decide (cid c = i)) as [Hc|Hc];
      [|rewrite editMessage_conv_miss by done; unfold editMessage_conv;
        rewrite bool_decide_eq_false_2 by done; by apply Hold].
    rewrite editMessage_conv_run by done.
    pose proof (editMessage_msgs_world messageId updatedMessage
                  (conv_messages (obj_fields c)) w) as (Hk & Ht & Hn).
    simpl. apply Hnew; simpl; try lia; try done.
    intros _. eexists. split; [|by rewrite Hk]. lia.
  - eff. case_bool_decide; simpl; [|by apply Hold].
    apply Hnew; simpl; try lia; try done.
    intros _. eexists. split; [|reflexivity]. lia.
  - eff. case_bool_decide; simpl; [|by apply Hold].
    apply Hnew; simpl; try lia; try done.
    intros _. eexists. split; [|reflexivity]. lia.
Qed.

Lemma Forall2_right_elem {A B} (R : A -> B -> Prop) l k :
  Forall2 R l k -> Forall (fun y => exists x, x ∈ l /\ R x y) k.
Proof.
  induction 1 as [|x y l k Hxy _ IH]; constructor.
  - exists x. split; [left|done].
  - eapply Forall_impl; [exact IH|]. intros y' (x' & Hx' & HR).
    exists x'. split; [by right|done].
Qed.

Lemma exec_between g op f i s w :
  per_conversation op = Some f -> target op = Some i ->
  world_le w (exec g op s w).2
  /\ Forall2
       (fun c c' =>
          cid c' = cid c
          /\ (c' = c \/
              (next_loc w <= obj_addr c' < next_loc (exec g op s w).2)%nat)
          /\ (cid c = i ->
              exists n, (ticks w <= n < ticks (exec g op s w).2)%nat
                        /\ conv_updated (obj_fields c') = Some (clock w n)))
       (conversations s) (conversations (exec g op s w).1).
Proof.
  intros Hf Hi.
  rewrite (exec_per_conversation g op f s w Hf),
    (exec_per_conversation_world g op f s w Hf). simpl.
  apply (mapE_between
           (fun a b c c' =>
              cid c' = cid c
              /\ (c' = c \/ (next_loc a <= obj_addr c' < next_loc b)%nat)
              /\ (cid c = i ->
                  exists n, (ticks a <= n < ticks b)%nat
                            /\ conv_updated (obj_fields c')
                               = Some (clock a n)))).
  - intros c w0. destruct (callback_world op f i c w0 Hf Hi) as (Hle & Ha & Hs).
    split; [done|]. split; [by apply (callback_cid op)|done].
  - intros a b a' b' c c' (Hca & Hta & Hna) (Hcb & Htb & Hnb) (Hid & Ha & Hs).
    split; [done|]. split.
    + destruct Ha as [->|Ha]; [by left|right; lia].
    + intros Hc. destruct (Hs Hc) as (n & Hn & Hu).
      exists n. split; [lia|]. by rewrite <- Hca.
Qed.

(** X18. Each of the six operations that map over the list stamps every
    conversation with the target id with a reading of the clock taken during
    that call; the clock itself is not changed and readings are only
    consumed. *)
Theorem touched_conversation_stamped g op i s w :
  is_Some (per_conversation op) -> target op = Some i ->
  let w' := (exec g op s w).2 in
  clock w' = clock w /\ (ticks w <= ticks w')%nat
  /\ Forall
       (fun c' =>
          cid c' = i ->
          exists n, (ticks w <= n < ticks w')%nat
                    /\ conv_updated (obj_fields c') = Some (clock w n))
       (conversations (exec g op s w).1).
Proof.
  intros [f Hf] Hi w'. subst w'.
  destruct (exec_between g op f i s w Hf Hi) as ((Hc & Ht & _) & H2).
  split; [done|]. split; [done|].
  eapply Forall_impl; [exact (Forall2_right_elem _ _ _ H2)|].
  intros c' (c & _ & Hid & _ & Hs) Hc'. apply Hs. congruence.
Qed.

Lemma touched_conversation_stamped_witness :
  let r := exec sample_globals
             (OAddMessage "default" (sample_message "m1" user (Some 3)))
             (initial_state sample_globals) sample_world' in
  Forall
    (fun c' =>
       cid c' = "default" ->
       exists n, (ticks sample_world' <= n < ticks r.2)%nat
                 /\ conv_updated (obj_fields c')
                    = Some (clock sample_world' n))
    (conversations r.1).
Proof.
  intros r.
  apply (touched_conversation_stamped sample_globals
           (OAddMessage "default" (sample_message "m1" user (Some 3)))
           "default" (initial_state sample_globals) sample_world').
  - by eexists.
  - reflexivity.
Defined.

(** X19. When every object of the snapshot was allocated before the call,
    each of the six operations that map over the list returns, for every
    conversation, either the object it was given or a newly allocated one,
    whose address no object of the previous snapshot has: the same reference
    never carries changed content. The new snapshot's objects are again all
    allocated. *)
Theorem rebuilt_objects_are_fresh g op i s w :
  is_Some (per_conversation op) -> target op = Some i ->
  Forall (fun c => (obj_addr c < next_loc w)%nat) (conversations s) ->
  Forall2
    (fun c c' =>
       c' = c
       \/ forall c0, c0 ∈ conversations s -> obj_addr c' ≠ obj_addr c0)
    (conversations s) (conversations (exec g op s w).1)
  /\ Forall (fun c' => (obj_addr c' < next_loc (exec g op s w).2)%nat)
       (conversations (exec g op s w).1).
Proof.
  intros [f Hf] Hi Hwf.
  destruct (exec_between g op f i s w Hf Hi) as ((_ & _ & Hn) & H2).
  split.
  - eapply Forall2_impl; [exact H2|]. intros c c' (_ & [->|Ha] & _).
    + by left.
    + right. intros c0 Hc0.
      pose proof (proj1 (Forall_forall _ _) Hwf c0 Hc0). simpl in *. lia.
  - eapply Forall_impl; [exact (Forall2_right_elem _ _ _ H2)|].
    intros c' (c & Hc & _ & [->|Ha] & _); simpl; [|lia].
    pose proof (proj1 (Forall_forall _ _) Hwf c Hc). simpl in *. lia.
Qed.

Lemma rebuilt_objects_are_fresh_witness :
  let s := addConversation (sample_conversation 2%nat "c1" None)
             (initial_state sample_globals) in
  let r := exec sample_globals (OSetChatModelId "c1" "gpt-3.5-turbo") s
             (mkWorld (clock sample_world') (ticks sample_world') 3%nat) in
  Forall2
    (fun c c' =>
       c' = c
       \/ forall c0, c0 ∈ conversations s -> obj_addr c' ≠ obj_addr c0)
    (conversations s) (conversations r.1)
  /\ Forall (fun c' => (obj_addr c' < next_loc r.2)%nat) (conversations r.1).
Proof.
  intros s r.
  apply (rebuilt_objects_are_fresh sample_globals
           (OSetChatModelId "c1" "gpt-3.5-turbo") "c1").
  - by eexists.
  - reflexivity.
  - repeat constructor; simpl; lia.
Defined.

(** ** Appending and removing messages *)

(** X10. [addMessage] puts the message at the end of the message list of the
    conversations with the id, after the messages that were there, which
    keep their order; the fields of the other conversations are unchanged. *)
Theorem addMessage_appends i m s w :
  Forall2
    (fun c c' =>
       if bool_decide (cid c = i)
       then conv_messages (obj_fields c')
            = (conv_messages (obj_fields c) ++ [m])%list
            /\ last (conv_messages (obj_fields c')) = Some m
            /\ length (conv_messages (obj_fields c'))
               = S (length (conv_messages (obj_fields c)))
       else obj_fields c' = obj_fields c)
    (conversations s) (conversations (addMessage i m s w).1).
Proof.
  unfold addMessage. rewrite setE_mapE. simpl.
  apply mapE_Forall2. intros c w' _. unfold addMessage_conv.
  destruct (decide (cid c = i)) as [Hi|Hi].
  - rewrite (bool_decide_eq_false_2 (cid c ≠ i)) by (intros Hne; by apply Hne).
    rewrite bool_decide_eq_true_2 by done. eff.
    split; [done|]. split; [apply last_snoc|].
    rewrite length_app. simpl. lia.
  - rewrite (bool_decide_eq_true_2 (cid c ≠ i)) by done.
    by rewrite bool_decide_eq_false_2.
Qed.

(** X20. Removing the same message id a second time changes nothing but
    [updated] stamps and object identities. *)
Theorem removeMessage_twice i j s w w' w'' :
  state_equiv
    (removeMessage i j (removeMessage i j s w).1 w').1
    (removeMessage i j s w'').1.
Proof.
  unfold removeMessage, state_equiv. rewrite !setE_mapE. simpl.
  split; [done|].
  eapply (Forall2_same_source
            (fun c y => exists w1 w2,
               y = (removeMessage_conv i j (removeMessage_conv i j c w1).1 w2).1)
            (fun c z => exists w3, z = (removeMessage_conv i j c w3).1)).
  - intros c y z (w1 & w2 & ->) (w3 & ->). eff.
    destruct (decide (conv_id (obj_fields c) = i)) as [Hi|Hi].
    + rewrite !(bool_decide_eq_true_2 (conv_id (obj_fields c) = i)) by done.
      simpl. rewrite list_filter_filter.
      rewrite (list_filter_iff _ (fun m => msg_id m ≠ j)) by tauto.
      split; [done|apply msgs_equiv_refl].
    + rewrite !(bool_decide_eq_false_2 (conv_id (obj_fields c) = i)) by done.
      simpl. rewrite ?bool_decide_eq_false_2 by done.
      apply fields_equiv_refl.
  - apply mapE_twice_Forall2. intros c w1 w2 _. by eexists _, _.
  - apply mapE_Forall2. intros c w3 _. by eexists.
Qed.

(** ** Ids that resolve to nothing: the outcome *)

Lemma Forall2_both {A B} (R1 R2 : A -> B -> Prop) l k :
  Forall2 R1 l k -> Forall2 R2 l k ->
  Forall2 (fun x y => R1 x y /\ R2 x y) l k.
Proof.
  induction 1 as [|x y l k Hxy _ IH]; intros H2.
  - constructor.
  - apply Forall2_cons_1 in H2 as [Hxy' H2]. constructor; auto.
Qed.

(** C4, amended. No operation fails. An operation that looks up a
    conversation id ([deleteConversation], [setChatModelId],
    [setSystemPurposeId], [addMessage], [editMessage], [removeMessage],
    [replaceMessages]) leaves the content of the snapshot as it was when no
    conversation has that id. When the conversation exists but none of its
    messages has the message id, [editMessage] and [removeMessage] keep the
    active id, every other conversation object and the conversation's
    messages, and rebuild the conversation with [cacheTokensCount] set to the
    sum over its messages and [updated] set to the current time: a reading
    of the clock taken during the call. *)
Theorem missing_id_noop g op s w :
  (forall i,
     target op = Some i ->
     Forall (fun c => cid c ≠ i) (conversations s) ->
     content (exec g op s w).1 = content s)
  /\ (forall i j,
        (op = ORemoveMessage i j \/ exists u, op = OEditMessage i j u) ->
        Forall (fun c => cid c = i ->
                         Forall (fun m => msg_id m ≠ j)
                           (conv_messages (obj_fields c)))
          (conversations s) ->
        activeConversationId (exec g op s w).1 = activeConversationId s
        /\ Forall2 (fun c c' =>
                      (cid c ≠ i -> c' = c)
                      /\ (cid c = i ->
                          exists n,
                            (ticks w <= n < ticks (exec g op s w).2)%nat
                            /\ obj_fields c'
                               = restamp (obj_fields c) (clock w n)))
             (conversations s) (conversations (exec g op s w).1)).
Proof.
  split; [intros i; apply missing_conversation_content|].
  intros i j Hop Hmiss.
  assert (exists f, per_conversation op = Some f) as [f Hf]
    by (destruct Hop as [->|[u ->]]; by eexists).
  assert (target op = Some i) as Hi by (by destruct Hop as [->|[u ->]]).
  split; [by rewrite (exec_per_conversation g op f s w Hf)|].
  destruct (exec_between g op f i s w Hf Hi) as [_ Hstamp].
  pose proof (missing_message_restamp g op i j s w Hop Hmiss) as Hre.
  eapply Forall2_impl; [exact (Forall2_both _ _ _ _ Hre Hstamp)|].
  intros c c' [[Hne Heq] (_ & _ & Hs)]. split; [exact Hne|].
  intros Hc. destruct (Heq Hc) as [t Ht]. destruct (Hs Hc) as (n & Hn & Hu).
  exists n. split; [exact Hn|]. rewrite Ht in Hu. simpl in Hu.
  injection Hu as ->. exact Ht.
Qed.

Lemma missing_id_noop_witness :
  let s0 := initial_state sample_globals in
  let s := (addMessage "default" (sample_message "m1" user (Some 3)) s0
              sample_world').1 in
  content (exec sample_globals
             (OAddMessage "gone" (sample_message "m1" user (Some 3)))
             s sample_world').1
  = content s
  /\ content (exec sample_globals (ODeleteConversation "gone") s
                sample_world').1
     = content s
  /\ Forall2 (fun c c' =>
                (cid c ≠ "default" -> c' = c)
                /\ (cid c = "default" ->
                    exists n,
                      (ticks sample_world' <= n
                       < ticks (exec sample_globals
                                  (ORemoveMessage "default" "nope") s
                                  sample_world').2)%nat
                      /\ obj_fields c'
                         = restamp (obj_fields c) (clock sample_world' n)))
       (conversations s)
       (conversations
          (exec sample_globals (ORemoveMessage "default" "nope") s
             sample_world').1)
  /\ Forall2 (fun c c' =>
                (cid c ≠ "default" -> c' = c)
                /\ (cid c = "default" ->
                    exists n,
                      (ticks sample_world' <= n
                       < ticks (exec sample_globals
                                  (OEditMessage "default" "nope" empty_partial)
                                  s sample_world').2)%nat
                      /\ obj_fields c'
                         = restamp (obj_fields c) (clock sample_world' n)))
       (conversations s)
       (conversations
          (exec sample_globals (OEditMessage "default" "nope" empty_partial)
             s sample_world').1).
Proof.
  intros s0 s. split; [|split; [|split]].
  - apply (proj1 (missing_id_noop sample_globals
                    (OAddMessage "gone" (sample_message "m1" user (Some 3)))
                    s sample_world') "gone"); [reflexivity|].
    repeat constructor. discriminate.
  - apply (proj1 (missing_id_noop sample_globals (ODeleteConversation "gone")
                    s sample_world') "gone"); [reflexivity|].
    repeat constructor. discriminate.
  - apply (proj2 (missing_id_noop sample_globals
                    (ORemoveMessage "default" "nope") s sample_world')
             "default" "nope"); [by left|].
    repeat constructor. discriminate.
  - apply (proj2 (missing_id_noop sample_globals
                    (OEditMessage "default" "nope" empty_partial) s
                    sample_world')
             "default" "nope"); [right; by eexists|].
    repeat constructor. discriminate.
Defined.

(** ** Editing a message: the outcome *)

Lemma setE_mapE_world (f : ConversationObj -> Eff ConversationObj) s w :
  (setE (fun state =>
           cs <- mapE f (conversations state) ;;
           ret {| set_conversations := Some cs;
                  set_activeConversationId := None |}) s w).2
  = (mapE f (conversations s) w).2.
Proof.
  unfold setE, bind, ret. by destruct (mapE f (conversations s) w).
Qed.

Lemma edited_between_mono j u a b a' b' m m' :
  world_le a' a -> world_le b b' ->
  edited_between j u a b m m' -> edited_between j u a' b' m m'.
Proof.
  unfold edited_between. intros (Hc & Ht & _) (_ & Ht' & _).
  case_bool_decide; [|done]. intros (n & Hn & ->).
  exists n. split; [lia|]. by rewrite Hc.
Qed.

Lemma editMessage_msgs_between j u ms w :
  world_le w (mapE (editMessage_msg j u) ms w).2
  /\ Forall2 (edited_between j u w (mapE (editMessage_msg j u) ms w).2)
       ms (mapE (editMessage_msg j u) ms w).1.
Proof.
  apply (mapE_between (edited_between j u)).
  - intros m w0. unfold edited_between, editMessage_msg.
    case_bool_decide; simpl.
    + split; [repeat split; simpl; lia|].
      exists (ticks w0). split; [lia|done].
    + split; [apply world_le_refl|done].
  - intros a b a' b' m m'. apply edited_between_mono.
Qed.

Lemma editMessage_convs_between i j u l w :
  Forall2
    (fun c c' =>
       if bool_decide (cid c = i)
       then Forall2
              (edited_between j u w (mapE (editMessage_conv i j u) l w).2)
              (conv_messages (obj_fields c)) (conv_messages (obj_fields c'))
       else c' = c)
    l (mapE (editMessage_conv i j u) l w).1.
Proof.
  apply (mapE_between
           (fun a b c c' =>
              if bool_decide (cid c = i)
              then Forall2 (edited_between j u a b)
                     (conv_messages (obj_fields c))
                     (conv_messages (obj_fields c'))
              else c' = c)).
  - intros c w0. case_bool_decide as Hi.
    + rewrite editMessage_conv_run by done. simpl.
      destruct (editMessage_msgs_between j u (conv_messages (obj_fields c)) w0)
        as [(Hc & Ht & Hn) H2].
      split; [repeat split; simpl; [done|lia|lia]|].
      eapply Forall2_impl; [exact H2|]. intros m m'.
      apply edited_between_mono; [apply world_le_refl|].
      repeat split; simpl; lia.
    + rewrite editMessage_conv_miss by done.
      unfold editMessage_conv. rewrite bool_decide_eq_false_2 by done.
      split; [apply world_le_refl|done].
  - intros a b a' b' c c' Ha Hb. case_bool_decide; [|done].
    intros H2. eapply Forall2_impl; [exact H2|]. intros m m'.
    by apply edited_between_mono.
Qed.

(** X14. [editMessage] keeps the number and the order of the messages. In a
    conversation with the id, a message with another message id is
    untouched; in a message with the message id every field takes the value
    the payload carries for it ([id] and [created] included) and keeps its
    value when the payload has no such key, and [updated] is a reading of
    the clock taken during the call, whatever the payload says. Other
    conversations are the same objects. (A payload key holds a value of the
    field's declared type.) *)
Theorem editMessage_spec i j u s w :
  Forall2
    (fun c c' =>
       if bool_decide (cid c = i)
       then Forall2
              (fun m m' =>
                 if bool_decide (msg_id m = j)
                 then msg_id m' = default (msg_id m) (p_id u)
                      /\ msg_text m' = default (msg_text m) (p_text u)
                      /\ msg_sender m' = default (msg_sender m) (p_sender u)
                      /\ msg_avatar m' = default (msg_avatar m) (p_avatar u)
                      /\ msg_typing m' = default (msg_typing m) (p_typing u)
                      /\ msg_role m' = default (msg_role m) (p_role u)
                      /\ msg_modelId m'
                         = default (msg_modelId m) (p_modelId u)
                      /\ msg_purposeId m'
                         = default (msg_purposeId m) (p_purposeId u)
                      /\ msg_cacheTokensCount m'
                         = default (msg_cacheTokensCount m)
                             (p_cacheTokensCount u)
                      /\ msg_created m'
                         = default (msg_created m) (p_created u)
                      /\ exists n,
                           (ticks w <= n
                            < ticks (editMessage i j u s w).2)%nat
                           /\ msg_updated m' = Some (clock w n)
                 else m' = m)
              (conv_messages (obj_fields c)) (conv_messages (obj_fields c'))
       else c' = c)
    (conversations s) (conversations (editMessage i j u s w).1).
Proof.
  unfold editMessage. rewrite setE_mapE, setE_mapE_world. simpl.
  eapply Forall2_impl; [apply editMessage_convs_between|].
  intros c c'. simpl. case_bool_decide; [|done].
  intros H2. eapply Forall2_impl; [exact H2|].
  intros m m'. unfold edited_between. case_bool_decide; [|done].
  intros (n & Hn & ->). simpl. repeat split. by exists n.
Qed.
